(** * LightChain: the light-client consensus engine

    A shallow embedding of [src/main/generic/consensus/light/LightChain.js]
    and the properties of its proof scoring, proof adoption, header
    validation and rebranching.

    Conventions of the embedding:
    - a [Hash] is the number its bytes denote; [.equals] is equality on it;
    - JavaScript numbers that the engine adds and compares (heights,
      difficulties, scores, result codes) are integers, [Z]; the two sums
      of [_pushBlockInternal] are rounded as a double rounds them
      ([js_add]), and a sum past the largest finite double, where
      JavaScript gives [Infinity], is left out of the statements that
      name the sums ([finite_sum]);
    - the chain store is a finite map from hashes to [ChainData] values:
      [putChainData] inserts or overwrites, [getChainData] reads the value
      written last, [truncate] empties the map;
    - the engine is a record threaded through a state-and-exception monad;
      a failed [Assert.that] is the outcome [Thrown], carrying the state at
      the throw; the two [while] loops of [_rebranch] run on fuel, and
      [Diverged] is the outcome of a loop that exhausted it;
    - [fire('head-changed', head)] appends [head] to the event log;
    - [Synchronizer.push] runs the queued thunks one at a time, so
      [pushProof] and [pushHeader] are their underscore counterparts. *)

From stdpp Require Import base option list gmap fin_maps.
From Stdlib Require Import ZArith NArith Lia.

Open Scope Z_scope.

(** ** Data model *)

Abbreviation Hash := N (only parsing).

Definition Interlink := list Hash.

Record BlockHeader := mkBlockHeader {
  prevHash : Hash;
  interlinkHash : Hash;
  height : Z;
  target : Z;
  nBits : Z;
  nonce : Z
}.

Record Block := mkBlock {
  header : BlockHeader;
  interlink : Interlink
}.

(** [new ChainData(head, totalDifficulty, totalWork, onMainChain = false)] *)
Record ChainData := mkChainData {
  head : Block;
  totalDifficulty : Z;
  totalWork : Z;
  onMainChain : bool
}.

Definition set_onMainChain (flag : bool) (d : ChainData) : ChainData :=
  mkChainData (head d) (totalDifficulty d) (totalWork d) flag.

(** A [BlockChain] is never empty (the proof type refuses an empty prefix):
    [blocks] is [chain_init ++ [chain_head]], [head] its last block. *)
Record BlockChain := mkBlockChain {
  chain_init : list Block;
  chain_head : Block
}.

Definition blocks (c : BlockChain) : list Block := chain_init c ++ [chain_head c].

Record HeaderChain := mkHeaderChain {
  headers : list BlockHeader
}.

Record ChainProof := mkChainProof {
  prefix : BlockChain;
  suffix : HeaderChain
}.

(** The engine: [LightChain] with the [_store] of its base class and the
    log of [head-changed] payloads. *)
Record LightChain := mkLightChain {
  _store : gmap Hash ChainData;
  _proof : ChainProof;
  _headHash : Hash;
  _mainChain : ChainData;
  fired : list Block
}.

Definition with_store (s : gmap Hash ChainData) (c : LightChain) : LightChain :=
  mkLightChain s (_proof c) (_headHash c) (_mainChain c) (fired c).

Definition with_headHash (h : Hash) (c : LightChain) : LightChain :=
  mkLightChain (_store c) (_proof c) h (_mainChain c) (fired c).

Definition with_mainChain (d : ChainData) (c : LightChain) : LightChain :=
  mkLightChain (_store c) (_proof c) (_headHash c) d (fired c).

Definition with_fired (e : list Block) (c : LightChain) : LightChain :=
  mkLightChain (_store c) (_proof c) (_headHash c) (_mainChain c) e.

(** ** External collaborators

    Everything the engine calls but does not define: the block library,
    [BlockUtils], [Policy], [BlockChain.lowestCommonAncestor], the proof's
    own [verify] and [head], and [BaseChain.getNextTarget], which reads
    the store. *)
Class BlockLib := mkBlockLib {
  header_hash : BlockHeader -> Hash;
  verifyProofOfWork : BlockHeader -> bool;
  isImmediateSuccessorOf : BlockHeader -> BlockHeader -> bool;
  getNextInterlink : Block -> Z -> Interlink;
  interlink_hash : Interlink -> Hash;
  difficulty : BlockHeader -> Z;
  hashToTarget : Hash -> Z;
  getTargetDepth : Z -> nat;
  realDifficulty : Hash -> Z;
  isValidTarget : Z -> bool;
  targetToCompact : Z -> Z;
  getNextTarget : gmap Hash ChainData -> Block -> Z;
  lowestCommonAncestor : BlockChain -> BlockChain -> Block;
  proof_verify : ChainProof -> bool;
  proof_head : ChainProof -> BlockHeader;
  chain_totalDifficulty : HeaderChain -> Z;
  toLight : Block -> Block;
  GENESIS : Block;
  Policy_K : Z;
  Policy_M : Z
}.

(** ** JavaScript numbers

    [a + b] on integer-valued numbers: the exact sum, rounded to the
    nearest double, ties to the even significand.  Below [2^53] in absolute
    value every integer is a double; above, the doubles are the multiples
    of [2^(e-52)] for the integers of [e+1] bits. *)
Definition round_double (n : Z) : Z :=
  if Z.abs n <? 2 ^ 53 then n
  else
    let u := 2 ^ (Z.log2 (Z.abs n) - 52) in
    let q := Z.abs n / u in
    let r := Z.abs n mod u in
    let q' := if 2 * r <? u then q
              else if u <? 2 * r then q + 1
              else if Z.even q then q else q + 1 in
    Z.sgn n * (q' * u).

Definition js_add (a b : Z) : Z := round_double (a + b).

(** [Number.MAX_VALUE] *)
Definition max_double : Z := (2 ^ 53 - 1) * 2 ^ 971.

(** [a + b] is a finite double: the rounded sum does not pass
    [Number.MAX_VALUE], so that JavaScript does not answer [Infinity]. *)
Definition finite_sum (a b : Z) : Prop := Z.abs (js_add a b) <= max_double.

(** Result codes. *)
Definition ERR_ORPHAN : Z := -2.
Definition ERR_INVALID : Z := -1.
Definition OK_KNOWN : Z := 0.
Definition OK_EXTENDED : Z := 1.
Definition OK_REBRANCHED : Z := 2.
Definition OK_FORKED : Z := 3.

(** ** The engine monad *)

Inductive outcome (A : Type) : Type :=
| Returned (a : A) (s : LightChain)
| Thrown (s : LightChain)
| Diverged.

Arguments Returned {A} a s.
Arguments Thrown {A} s.
Arguments Diverged {A}.

Definition Eng (A : Type) : Type := LightChain -> outcome A.

Definition ret {A} (a : A) : Eng A := fun s => Returned a s.

Definition bind {A B} (m : Eng A) (k : A -> Eng B) : Eng B :=
  fun s => match m s with
           | Returned a s' => k a s'
           | Thrown s' => Thrown s'
           | Diverged => Diverged
           end.

Definition throw {A} : Eng A := fun s => Thrown s.

Definition get : Eng LightChain := fun s => Returned s s.

Definition modify (f : LightChain -> LightChain) : Eng unit :=
  fun s => Returned tt (f s).

Notation "x <~ m ;; k" := (bind m (fun x => k))
  (at level 100, m at next level, right associativity).
Notation "m ;;; k" := (bind m (fun _ => k))
  (at level 100, right associativity).

(** [Assert.that(c)] *)
Definition Assert_that (c : bool) : Eng unit :=
  if c then ret tt else throw.

(** [this._store.putChainData(hash, data)] *)
Definition putChainData (h : Hash) (d : ChainData) : Eng unit :=
  modify (fun s => with_store (<[h := d]> (_store s)) s).

(** [this._store.getChainData(hash)] *)
Definition getChainData (h : Hash) : Eng (option ChainData) :=
  fun s => Returned (_store s !! h) s.

(** [this._store.getBlock(hash)] *)
Definition getBlock (h : Hash) : Eng (option Block) :=
  fun s => Returned (head <$> _store s !! h) s.

(** [this.fire('head-changed', this.head)] *)
Definition fire_head_changed : Eng unit :=
  modify (fun s => with_fired (fired s ++ [head (_mainChain s)]) s).

Section Engine.

Context {lib : BlockLib}.

Definition block_hash (b : Block) : Hash := header_hash (header b).

(** ** ProofScorer: [_getProofScore] *)

(** [counts[depth]], [undefined] for a hole or past the end. *)
Definition counts_get (counts : list (option Z)) (depth : nat) : option Z :=
  mjoin (counts !! depth).

(** [counts[depth] = v]: in range it overwrites, past the end the array
    grows and the skipped indices are holes. *)
Definition counts_set (counts : list (option Z)) (depth : nat) (v : Z)
  : list (option Z) :=
  if decide (depth < length counts)%nat
  then <[depth := Some v]> counts
  else counts ++ replicate (depth - length counts) None ++ [Some v].

(** [counts[depth] ? a : b]: [undefined] and [0] are falsy. *)
Definition count_or (counts : list (option Z)) (depth : nat) (f : Z -> Z) (dflt : Z) : Z :=
  match counts_get counts depth with
  | Some c => if decide (c = 0) then dflt else f c
  | None => dflt
  end.

(** The first loop: one counter per superblock depth, over the blocks at
    or above the height of [lca]. *)
Fixpoint count_depths (bs : list Block) (lca : Block) (counts : list (option Z))
  : list (option Z) :=
  match bs with
  | [] => counts
  | block :: rest =>
      if decide (height (header block) < height (header lca))
      then count_depths rest lca counts
      else
        let target := hashToTarget (block_hash block) in
        let depth := getTargetDepth target in
        count_depths rest lca
          (counts_set counts depth (count_or counts depth (fun c => c + 1) 1))
  end.

(** The second loop, [n] being [depth + 1]: it returns the final [depth]
    and [sum]; [depth] is [-1] when the loop ran to its end. *)
Fixpoint scan_depths (counts : list (option Z)) (n : nat) (sum m : Z) : Z * Z :=
  match n with
  | O => (-1, sum)
  | S depth =>
      let sum' := sum + count_or counts depth (fun c => c) 0 in
      if decide (sum' >= m) then (Z.of_nat depth, sum')
      else scan_depths counts depth sum' m
  end.

Definition _getProofScore (chain : BlockChain) (lca : Block) (m : Z) : Z :=
  let counts := count_depths (blocks chain) lca [] in
  let '(depth, sum) := scan_depths counts (length counts) 0 m in
  2 ^ (Z.max depth 0) * sum.

(** ** ProofVerifier: [_isBetterProof] *)

Definition _isBetterProof (proof1 proof2 : ChainProof) (m : Z) : bool :=
  let lca := lowestCommonAncestor (prefix proof1) (prefix proof2) in
  let score1 := _getProofScore (prefix proof1) lca m in
  let score2 := _getProofScore (prefix proof2) lca m in
  if decide (score1 = score2)
  then bool_decide (chain_totalDifficulty (suffix proof1) >= chain_totalDifficulty (suffix proof2))
  else bool_decide (score1 > score2).

(** ** ProofVerifier: the suffix checks of [_pushProof] *)

(** The interlink loop: [None] when a recomputed interlink hash differs
    from the header's, else the suffix blocks in order. *)
Fixpoint verify_suffix (hd : Block) (hs : list BlockHeader) : option (list Block) :=
  match hs with
  | [] => Some []
  | h :: rest =>
      let il := getNextInterlink hd (target h) in
      let ilHash := interlink_hash il in
      if decide (interlinkHash h = ilHash)
      then
        let hd' := mkBlock h il in
        cons hd' <$> verify_suffix hd' rest
      else None
  end.

(** [proof.suffix.length] *)
Definition suffix_length (proof : ChainProof) : Z :=
  Z.of_nat (length (headers (suffix proof))).

(** The guard of the second [if]: true when the length is rejected. *)
Definition bad_suffix_length (proof : ChainProof) : bool :=
  bool_decide (suffix_length proof <> Policy_K)
  && bool_decide (suffix_length proof <> height (proof_head proof) - 1).

(** ** ChainEngine *)

(** The first loop of [_rebranch] only reads the store. *)
Inductive fork_walk_result :=
| ForkFound (curHash : Hash) (forkChain : list (Hash * ChainData))
| ForkMissing
| ForkFuel.

Fixpoint fork_walk (fuel : nat) (store : gmap Hash ChainData)
    (curHash : Hash) (curData : ChainData) (forkChain : list (Hash * ChainData))
  : fork_walk_result :=
  if onMainChain curData then ForkFound curHash forkChain
  else match fuel with
       | O => ForkFuel
       | S fuel' =>
           let forkChain' := forkChain ++ [(curHash, curData)] in
           let curHash' := prevHash (header (head curData)) in
           match store !! curHash' with
           | None => ForkMissing
           | Some curData' => fork_walk fuel' store curHash' curData' forkChain'
           end
       end.

(** The second loop of [_rebranch].  [headData] starts as the object
    [this._mainChain], so the first assignment to its flag is seen through
    that field too ([aliased]); later [headData] come from the store. *)
Fixpoint unset_main (fuel : nat) (aliased : bool) (headHash : Hash)
    (headData : ChainData) (curHash : Hash) : Eng unit :=
  if decide (headHash = curHash) then ret tt
  else match fuel with
       | O => fun _ => Diverged
       | S fuel' =>
           let headData' := set_onMainChain false headData in
           (if aliased then modify (with_mainChain headData') else ret tt) ;;;
           putChainData headHash headData' ;;;
           let headHash' := prevHash (header (head headData')) in
           o <~ getChainData headHash' ;;
           match o with
           | None => throw
           | Some d => unset_main fuel' false headHash' d curHash
           end
       end.

(** The third loop of [_rebranch], over the fork from its far end. *)
Fixpoint set_fork (l : list (Hash * ChainData)) : Eng unit :=
  match l with
  | [] => ret tt
  | (h, d) :: rest => putChainData h (set_onMainChain true d) ;;; set_fork rest
  end.

(** [forkChain[0]] is the object [chainData]: when the fork is not empty
    the flag set by the third loop is set on [chainData] itself. *)
Definition _rebranch (fuel : nat) (blockHash : Hash) (chainData : ChainData) : Eng unit :=
  s <~ get ;;
  match fork_walk fuel (_store s) blockHash chainData [] with
  | ForkFuel => fun _ => Diverged
  | ForkMissing => throw
  | ForkFound curHash forkChain =>
      unset_main fuel true (_headHash s) (_mainChain s) curHash ;;;
      set_fork (reverse forkChain) ;;;
      let chainData' :=
        match forkChain with
        | [] => chainData
        | _ :: _ => set_onMainChain true chainData
        end in
      modify (with_mainChain chainData') ;;;
      modify (with_headHash blockHash)
  end.

Definition _pushBlockInternal (fuel : nat) (block : Block) (blockHash : Hash)
    (prevData : ChainData) : Eng Z :=
  let td := js_add (totalDifficulty prevData) (difficulty (header block)) in
  let tw := js_add (totalWork prevData) (realDifficulty blockHash) in
  let chainData := mkChainData block td tw false in
  s <~ get ;;
  if decide (prevHash (header block) = _headHash s) then
    let chainData := set_onMainChain true chainData in
    putChainData blockHash chainData ;;;
    modify (with_mainChain chainData) ;;;
    modify (with_headHash blockHash) ;;;
    fire_head_changed ;;;
    ret OK_EXTENDED
  else if decide (td > totalDifficulty (_mainChain s)) then
    _rebranch fuel blockHash chainData ;;;
    fire_head_changed ;;;
    ret OK_REBRANCHED
  else
    putChainData blockHash chainData ;;;
    ret OK_FORKED.

Definition _pushBlock (fuel : nat) (block : Block) : Eng Z :=
  let hash := block_hash block in
  knownBlock <~ getBlock hash ;;
  match knownBlock with
  | Some _ => ret OK_KNOWN
  | None =>
      prevData <~ getChainData (prevHash (header block)) ;;
      match prevData with
      | None => ret ERR_ORPHAN
      | Some prevData =>
          if decide (totalDifficulty prevData <= 0) then ret ERR_ORPHAN
          else _pushBlockInternal fuel block hash prevData
      end
  end.

Definition _pushHeader (fuel : nat) (hdr : BlockHeader) : Eng Z :=
  let hash := header_hash hdr in
  knownBlock <~ getBlock hash ;;
  match knownBlock with
  | Some _ => ret OK_KNOWN
  | None =>
      if negb (verifyProofOfWork hdr) then ret ERR_INVALID
      else
        prevData <~ getChainData (prevHash hdr) ;;
        match prevData with
        | None => ret ERR_ORPHAN
        | Some prevData =>
            if decide (totalDifficulty prevData <= 0) then ret ERR_ORPHAN
            else
              let predecessor := head prevData in
              if negb (isImmediateSuccessorOf hdr (header predecessor))
              then ret ERR_INVALID
              else
                s <~ get ;;
                let nextTarget := getNextTarget (_store s) predecessor in
                if isValidTarget nextTarget
                   && bool_decide (nBits hdr <> targetToCompact nextTarget)
                then ret ERR_INVALID
                else
                  let il := getNextInterlink predecessor (target hdr) in
                  let ilHash := interlink_hash il in
                  if negb (bool_decide (ilHash = interlinkHash hdr))
                  then ret ERR_INVALID
                  else
                    let block := mkBlock hdr il in
                    _pushBlockInternal fuel block hash prevData
        end
  end.

Definition pushHeader (fuel : nat) (hdr : BlockHeader) : Eng Z :=
  _pushHeader fuel hdr.

(** The loop of [_acceptProof] over the suffix. *)
Fixpoint push_suffix (fuel : nat) (blocks : list Block) : Eng unit :=
  match blocks with
  | [] => ret tt
  | block :: rest =>
      result <~ _pushBlock fuel block ;;
      Assert_that (bool_decide (result >= 0)) ;;;
      push_suffix fuel rest
  end.

(** The loop of [_acceptProof] over the prefix without its head. *)
Fixpoint put_prefix (blocks : list Block) : Eng unit :=
  match blocks with
  | [] => ret tt
  | block :: rest =>
      putChainData (block_hash block) (mkChainData block (-1) (-1) true) ;;;
      put_prefix rest
  end.

Definition reset_to (hd : Block) (headHash : Hash) (proof : ChainProof) : Eng unit :=
  modify (with_store ∅) ;;;
  modify (with_headHash headHash) ;;;
  let mainChain := mkChainData hd (difficulty (header hd)) (realDifficulty headHash) true in
  modify (with_mainChain mainChain) ;;;
  putChainData headHash mainChain ;;;
  put_prefix (chain_init (prefix proof)).

Definition _acceptProof (fuel : nat) (proof : ChainProof) (sfx : list Block) : Eng unit :=
  let hd := chain_head (prefix proof) in
  let headHash := block_hash hd in
  headData <~ getChainData headHash ;;
  (match headData with
   | None => reset_to hd headHash proof
   | Some headData =>
       if decide (totalDifficulty headData <= 0)
       then reset_to hd headHash proof
       else ret tt
   end) ;;;
  push_suffix fuel sfx.

Definition _pushProof (fuel : nat) (proof : ChainProof) : Eng bool :=
  if negb (proof_verify proof) then ret false
  else if bad_suffix_length proof then ret false
  else
    match verify_suffix (chain_head (prefix proof)) (headers (suffix proof)) with
    | None => ret false
    | Some suffixBlocks =>
        s <~ get ;;
        if _isBetterProof proof (_proof s) Policy_M
        then _acceptProof fuel proof suffixBlocks ;;; ret true
        else ret true
    end.

Definition pushProof (fuel : nat) (proof : ChainProof) : Eng bool :=
  _pushProof fuel proof.

(** The constructor followed by [_init]. *)
Definition genesis_proof : ChainProof :=
  mkChainProof (mkBlockChain [] (toLight GENESIS)) (mkHeaderChain []).

Definition genesis_data : ChainData :=
  mkChainData GENESIS (difficulty (header GENESIS))
    (realDifficulty (block_hash GENESIS)) true.

Definition new_LightChain : LightChain :=
  mkLightChain {[ block_hash GENESIS := genesis_data ]} genesis_proof
    (block_hash GENESIS) genesis_data [].

End Engine.

(** ** Predicates used in the statements *)

Section Predicates.

Context {lib : BlockLib}.

(** The header checks between the known-block test and the append path,
    as the source makes them. *)
Definition header_checks (s : LightChain) (hdr : BlockHeader) (prevData : ChainData) : bool :=
  isImmediateSuccessorOf hdr (header (head prevData))
  && negb (isValidTarget (getNextTarget (_store s) (head prevData))
           && bool_decide (nBits hdr <> targetToCompact (getNextTarget (_store s) (head prevData))))
  && bool_decide (interlink_hash (getNextInterlink (head prevData) (target hdr)) = interlinkHash hdr).

(** [verification_fails]: one of the three checks of [_pushProof] fails. *)
Definition verification_fails (proof : ChainProof) : Prop :=
  proof_verify proof = false
  \/ (suffix_length proof <> Policy_K
      /\ suffix_length proof <> height (proof_head proof) - 1)
  \/ verify_suffix (chain_head (prefix proof)) (headers (suffix proof)) = None.

(** [verification_passes]: all three checks pass, and the interlink loop
    yields the suffix blocks [sfx]. *)
Definition verification_passes (proof : ChainProof) (sfx : list Block) : Prop :=
  proof_verify proof = true
  /\ (suffix_length proof = Policy_K
      \/ suffix_length proof = height (proof_head proof) - 1)
  /\ verify_suffix (chain_head (prefix proof)) (headers (suffix proof)) = Some sfx.

(** The hash [h] is unknown to the store or stored as a retrieval-only
    leaf: nothing can be appended to it. *)
Definition not_extendable (s : LightChain) (h : Hash) : Prop :=
  _store s !! h = None
  \/ exists pd, _store s !! h = Some pd /\ totalDifficulty pd <= 0.

(** The predecessor of [hdr] is unknown or a retrieval-only leaf. *)
Definition orphan (s : LightChain) (hdr : BlockHeader) : Prop :=
  not_extendable s (prevHash hdr).

(** The store after [putChainData h (set_onMainChain flag d)] for each
    [(h, d)] of [l], first to last. *)
Fixpoint put_all (flag : bool) (l : list (Hash * ChainData))
    (m : gmap Hash ChainData) : gmap Hash ChainData :=
  match l with
  | [] => m
  | (h, d) :: rest => put_all flag rest (<[h := set_onMainChain flag d]> m)
  end.

(** [chain_path store flag h l anc]: following [prevHash] from the hash [h]
    leads through the stored entries [l], each flagged [flag], and then to
    the hash [anc]. *)
Fixpoint chain_path (store : gmap Hash ChainData) (flag : bool) (h : Hash)
    (l : list (Hash * ChainData)) (anc : Hash) : Prop :=
  match l with
  | [] => h = anc
  | (h', d) :: rest =>
      h' = h
      /\ store !! h = Some d
      /\ onMainChain d = flag
      /\ chain_path store flag (prevHash (header (head d))) rest anc
  end.

(** [hdr] is new to the engine and passes every check of [_pushHeader]
    against its stored predecessor [pd]. *)
Definition valid_header (s : LightChain) (hdr : BlockHeader) (pd : ChainData) : Prop :=
  _store s !! header_hash hdr = None
  /\ verifyProofOfWork hdr = true
  /\ _store s !! prevHash hdr = Some pd
  /\ totalDifficulty pd > 0
  /\ header_checks s hdr pd = true.


(** Calls of the public operations one after the other.  A call that
    throws leaves the engine as it was at the throw, and the next call
    starts from there; a call that never ends has no successor. *)
Inductive call :=
| PushProof (proof : ChainProof)
| PushHeader (hdr : BlockHeader).

Definition state_after {A} (o : outcome A) : option LightChain :=
  match o with
  | Returned _ s' => Some s'
  | Thrown s' => Some s'
  | Diverged => None
  end.

Definition after_call (fuel : nat) (c : call) (s : LightChain) : option LightChain :=
  match c with
  | PushProof proof => state_after (pushProof fuel proof s)
  | PushHeader hdr => state_after (pushHeader fuel hdr s)
  end.

Fixpoint after_calls (fuel : nat) (cs : list call) (s : LightChain) : option LightChain :=
  match cs with
  | [] => Some s
  | c :: rest =>
      match after_call fuel c s with
      | Some s' => after_calls fuel rest s'
      | None => None
      end
  end.

(** The blocks [bs] follow one another by [prevHash], the first one on the
    block hashed [h]. *)
Fixpoint linked_from (h : Hash) (bs : list Block) : Prop :=
  match bs with
  | [] => True
  | b :: rest => prevHash (header b) = h /\ linked_from (block_hash b) rest
  end.

(** [proof.head.hash()] for a proof with suffix blocks [sfx]. *)
Definition last_hash (h : Hash) (bs : list Block) : Hash :=
  List.last (block_hash <$> bs) h.

End Predicates.

(** [respects R m]: every run of [m] that ends, by returning or by
    throwing, ends in a state related by [R] to the one it started from. *)
Definition respects (R : LightChain -> LightChain -> Prop) {A} (m : Eng A) : Prop :=
  forall s, match m s with
            | Returned _ s' => R s s'
            | Thrown s' => R s s'
            | Diverged => True
            end.

(** The library [lib] with the validators used on the header path replaced:
    proof of work, succession, retargeting and its compact form, and the
    interlink computation and hash. *)
Definition with_validators (lib : BlockLib)
    (pow : BlockHeader -> bool)
    (succ : BlockHeader -> BlockHeader -> bool)
    (next : gmap Hash ChainData -> Block -> Z)
    (valid : Z -> bool)
    (compact : Z -> Z)
    (nextInterlink : Block -> Z -> Interlink)
    (ilHash : Interlink -> Hash) : BlockLib :=
  {| header_hash := @header_hash lib;
     verifyProofOfWork := pow;
     isImmediateSuccessorOf := succ;
     getNextInterlink := nextInterlink;
     interlink_hash := ilHash;
     difficulty := @difficulty lib;
     hashToTarget := @hashToTarget lib;
     getTargetDepth := @getTargetDepth lib;
     realDifficulty := @realDifficulty lib;
     isValidTarget := valid;
     targetToCompact := compact;
     getNextTarget := next;
     lowestCommonAncestor := @lowestCommonAncestor lib;
     proof_verify := @proof_verify lib;
     proof_head := @proof_head lib;
     chain_totalDifficulty := @chain_totalDifficulty lib;
     toLight := @toLight lib;
     GENESIS := @GENESIS lib;
     Policy_K := @Policy_K lib;
     Policy_M := @Policy_M lib |}.

(** ** What the scorer counts *)

Section Tally.

Context {lib : BlockLib}.

(** [BlockUtils.getTargetDepth(BlockUtils.hashToTarget(await block.hash()))] *)
Definition depth_of (b : Block) : nat :=
  getTargetDepth (hashToTarget (block_hash b)).

(** The blocks the first loop of [_getProofScore] does not skip. *)
Definition counted (bs : list Block) (lca : Block) : list Block :=
  filter (fun b => height (header lca) <= height (header b)) bs.

(** What the second loop adds at [depth]: [counts[depth] ? counts[depth] : 0]. *)
Definition count_at (counts : list (option Z)) (depth : nat) : Z :=
  count_or counts depth (fun c => c) 0.

(** The sum of the counters below index [n]. *)
Fixpoint total (counts : list (option Z)) (n : nat) : Z :=
  match n with
  | O => 0
  | S d => count_at counts d + total counts d
  end.

(** One round of the first loop on a block that is not skipped. *)
Definition tally_block (b : Block) (counts : list (option Z)) : list (option Z) :=
  counts_set counts (depth_of b) (count_or counts (depth_of b) (fun c => c + 1) 1).

(** Counters are never negative, and the last slot of a non-empty table
    holds at least one block. *)
Definition tallied (counts : list (option Z)) : Prop :=
  (forall d, 0 <= count_at counts d)
  /\ (counts <> [] -> 1 <= count_at counts (length counts - 1)).

(** Two tables the second loop cannot tell apart. *)
Definition same_tally (c1 c2 : list (option Z)) : Prop :=
  length c1 = length c2 /\ forall d, count_at c1 d = count_at c2 d.

End Tally.

(** ** Accessors and invariants of the engine *)

Section Invariants.

Context {lib : BlockLib}.

(** [get head()], [get headHash()] and [get height()]. *)
Definition get_head (s : LightChain) : Block := head (_mainChain s).
Definition get_headHash (s : LightChain) : Hash := _headHash s.
Definition get_height (s : LightChain) : Z := height (header (head (_mainChain s))).

(** Every entry of the store sits under the hash of its block, and
    [_headHash] is the hash of the head block. *)
Definition keyed_by_hash (s : LightChain) : Prop :=
  (forall h d, _store s !! h = Some d -> block_hash (head d) = h)
  /\ block_hash (head (_mainChain s)) = _headHash s.

(** [_headHash] resolves through the store to [_mainChain]. *)
Definition head_stored (s : LightChain) : Prop :=
  _store s !! _headHash s = Some (_mainChain s).

(** Two entries for the same block with the same totals: they differ at
    most in [onMainChain]. *)
Definition same_block (d d' : ChainData) : Prop :=
  head d' = head d
  /\ totalDifficulty d' = totalDifficulty d
  /\ totalWork d' = totalWork d.

(** [m'] has the keys of [m], and under each key the same block and totals. *)
Definition flags_only (m m' : gmap Hash ChainData) : Prop :=
  forall h, match m !! h, m' !! h with
            | Some d, Some d' => same_block d d'
            | None, None => True
            | _, _ => False
            end.

(** The hash of the prefix head is not the hash of an earlier prefix block. *)
Definition head_apart (proof : ChainProof) : Prop :=
  block_hash (chain_head (prefix proof)) ∉ block_hash <$> chain_init (prefix proof).

Definition call_apart (c : call) : Prop :=
  match c with
  | PushProof proof => head_apart proof
  | PushHeader _ => True
  end.

(** The interlink of each block of [sfx] is the one computed from the
    block before it, the first one from [hd]. *)
Fixpoint interlinked (hd : Block) (sfx : list Block) : Prop :=
  match sfx with
  | [] => True
  | b :: rest =>
      interlink b = getNextInterlink hd (target (header b)) /\ interlinked b rest
  end.

(** The entry [_pushBlockInternal] builds for [block] on [prevData]. *)
Definition entry_for (block : Block) (blockHash : Hash) (prevData : ChainData)
    (flag : bool) : ChainData :=
  mkChainData block
    (js_add (totalDifficulty prevData) (difficulty (header block)))
    (js_add (totalWork prevData) (realDifficulty blockHash)) flag.

(** The sums [_pushBlockInternal] would form for [hdr] on its stored
    predecessor are finite doubles. *)
Definition finite_push (s : LightChain) (hdr : BlockHeader) : Prop :=
  forall pd, _store s !! prevHash hdr = Some pd ->
    finite_sum (totalDifficulty pd) (difficulty hdr)
    /\ finite_sum (totalWork pd) (realDifficulty (header_hash hdr)).




End Invariants.

(** ** A small block library to run the engine on

    The hash of a header is its nonce, proof of work holds below 100, a
    successor is one block higher, interlinks are empty and hash to 0, the
    difficulty of a block is its [nBits], and retargeting never has enough
    blocks.  Genesis is the header with nonce 1 at height 1. *)
Module Toy.

Definition genesis : Block := mkBlock (mkBlockHeader 0 0 1 0 1 1) [].

Definition sum_nBits (hs : list BlockHeader) : Z :=
  foldr (fun h acc => nBits h + acc) 0 hs.

#[export] Instance BlockLib_toy : BlockLib := {|
  header_hash := fun h => Z.to_N (nonce h);
  verifyProofOfWork := fun h => bool_decide (nonce h < 100);
  isImmediateSuccessorOf := fun h p => bool_decide (height h = height p + 1);
  getNextInterlink := fun _ _ => [];
  interlink_hash := fun il => N.of_nat (length il);
  difficulty := fun h => nBits h;
  hashToTarget := fun h => Z.of_N h;
  getTargetDepth := fun t => Z.to_nat (t `mod` 3);
  realDifficulty := fun _ => 1;
  isValidTarget := fun _ => false;
  targetToCompact := fun t => t;
  getNextTarget := fun _ _ => 0;
  lowestCommonAncestor := fun _ _ => genesis;
  proof_verify := fun _ => true;
  proof_head := fun p => List.last (headers (suffix p)) (header (chain_head (prefix p)));
  chain_totalDifficulty := fun c => sum_nBits (headers c);
  toLight := fun b => b;
  GENESIS := genesis;
  Policy_K := 2;
  Policy_M := 1
|}.

(** A header on [prev] at [height] with difficulty [nBits] and hash [nonce]. *)
Definition hdr (prev : Hash) (height nBits nonce : Z) : BlockHeader :=
  mkBlockHeader prev 0 height 0 nBits nonce.

(** The engine as constructed, and the inputs of the runs below. *)
Definition st0 : LightChain := new_LightChain.

(** A header with a failing proof of work on an unknown predecessor. *)
Definition weak_orphan : BlockHeader := hdr 77 5 1 150.

(** A header with a passing proof of work on an unknown predecessor. *)
Definition orphan_hdr : BlockHeader := hdr 77 5 1 50.

(** A child of genesis. *)
Definition child : BlockHeader := hdr 1 2 1 2.

(** Genesis and one suffix header: length 1 is [head.height - 1]. *)
Definition proof1 : ChainProof :=
  mkChainProof (mkBlockChain [] genesis) (mkHeaderChain [child]).

(** The same prefix with a suffix header whose interlink hash is wrong. *)
Definition proof_bad_interlink : ChainProof :=
  mkChainProof (mkBlockChain [] genesis)
    (mkHeaderChain [mkBlockHeader 1 9 2 0 1 2]).

(** A suffix of three headers: neither [K = 2] nor [head.height - 1 = 1]. *)
Definition proof_bad_length : ChainProof :=
  mkChainProof (mkBlockChain [] genesis) (mkHeaderChain [child; child; child]).

(** A prefix of two unknown blocks and [K = 2] suffix headers on its head. *)
Definition proof_far : ChainProof :=
  mkChainProof
    (mkBlockChain [mkBlock (hdr 39 3 2 40) []] (mkBlock (hdr 40 5 4 41) []))
    (mkHeaderChain [hdr 41 6 3 42; hdr 42 7 2 43]).

Definition suffix_far : list Block :=
  [mkBlock (hdr 41 6 3 42) []; mkBlock (hdr 42 7 2 43) []].

(** The chain genesis - [child] - [grandchild] with a weaker sibling
    [child'] of [child], and [grandchild'] on [child'], heavier than the
    main chain. *)
Definition grandchild : BlockHeader := hdr 2 3 1 3.
Definition child' : BlockHeader := hdr 1 2 1 12.
Definition grandchild' : BlockHeader := hdr 12 3 5 13.

Definition data_child : ChainData := mkChainData (mkBlock child []) 2 2 true.
Definition data_grandchild : ChainData := mkChainData (mkBlock grandchild []) 3 3 true.
Definition data_child' : ChainData := mkChainData (mkBlock child' []) 2 2 false.

Definition st_forked : LightChain :=
  default st0
    (after_calls 5 [PushHeader child; PushHeader grandchild; PushHeader child'] st0).

(** A block on genesis with no proof of work, the wrong height and the
    wrong interlink hash. *)
Definition unchecked : Block := mkBlock (mkBlockHeader 1 9 7 0 1 150) [].

(** The engine after [child], after [child] and [grandchild], and after
    the adoption of [proof1] and of [proof_far]. *)
Definition st_child : LightChain :=
  default st0 (after_calls 5 [PushHeader child] st0).
Definition st_grandchild : LightChain :=
  default st0 (after_calls 5 [PushHeader child; PushHeader grandchild] st0).
Definition st_rebranched : LightChain :=
  default st0 (after_calls 5 [PushHeader grandchild'] st_forked).
Definition st_proof1 : LightChain :=
  default st0 (after_calls 5 [PushProof proof1] st0).
Definition st_far : LightChain :=
  default st0 (after_calls 5 [PushProof proof_far] st0).

(** Two chains with the same two blocks in either order. *)
Definition chain_ab : BlockChain := mkBlockChain [genesis] (mkBlock child []).
Definition chain_ba : BlockChain := mkBlockChain [mkBlock child []] genesis.

(** Five blocks at depth 0 and one or two at depth 1. *)
Definition chain_five_one : BlockChain :=
  mkBlockChain
    [mkBlock (hdr 0 1 1 3) []; mkBlock (hdr 0 1 1 6) []; mkBlock (hdr 0 1 1 9) [];
     mkBlock (hdr 0 1 1 12) []; mkBlock (hdr 0 1 1 15) []]
    (mkBlock (hdr 0 1 1 4) []).
Definition chain_five_two : BlockChain :=
  mkBlockChain
    [mkBlock (hdr 0 1 1 3) []; mkBlock (hdr 0 1 1 6) []; mkBlock (hdr 0 1 1 9) [];
     mkBlock (hdr 0 1 1 12) []; mkBlock (hdr 0 1 1 15) []; mkBlock (hdr 0 1 1 4) []]
    (mkBlock (hdr 0 1 1 7) []).

(** Two children of genesis, of difficulty [2^53 - 1] and [2^53]. *)
Definition heavy : BlockHeader := hdr 1 2 (2 ^ 53 - 1) 2.
Definition heavier : BlockHeader := hdr 1 2 (2 ^ 53) 12.
Definition st_heavy : LightChain :=
  default st0 (after_calls 5 [PushHeader heavy] st0).

(** A verified proof on genesis whose suffix header names an unknown
    predecessor. *)
Definition proof_loose : ChainProof :=
  mkChainProof (mkBlockChain [] genesis) (mkHeaderChain [hdr 77 2 1 5]).

(** A header with a proof of work on the first prefix block of [proof_far]. *)
Definition on_leaf : BlockHeader := hdr 40 4 1 50.

End Toy.

(** * Properties *)

(** ** Rounded sums *)

Section NumberFacts.

Lemma round_double_small n : Z.abs n < 2 ^ 53 -> round_double n = n.
Proof.
  intros H. unfold round_double.
  destruct (Z.ltb_spec (Z.abs n) (2 ^ 53)); [reflexivity|lia].
Qed.

Lemma round_double_pos n : 0 < n -> 0 < round_double n.
Proof.
  intros Hn. unfold round_double.
  destruct (Z.ltb_spec (Z.abs n) (2 ^ 53)) as [|Hbig]; [exact Hn|].
  rewrite Z.abs_eq in * by lia. rewrite Z.sgn_pos by exact Hn.
  assert (53 <= Z.log2 n) as Hlog.
  { rewrite <- (Z.log2_pow2 53) by lia. apply Z.log2_le_mono. exact Hbig. }
  set (u := 2 ^ (Z.log2 n - 52)).
  assert (0 < u) as Hu by (apply Z.pow_pos_nonneg; lia).
  assert (u <= n) as Hle.
  { destruct (Z.log2_spec n Hn) as [Hlow _].
    assert (u <= 2 ^ Z.log2 n) by (apply Z.pow_le_mono_r; lia). lia. }
  assert (1 <= n / u) as Hq by (apply Z.div_le_lower_bound; lia).
  repeat destruct (_ <? _); try destruct (Z.even _); nia.
Qed.

Lemma js_add_pos a b : 0 < a -> 0 <= b -> 0 < js_add a b.
Proof. intros Ha Hb. apply round_double_pos. lia. Qed.

(** In the range where every integer is a double the sum is exact. *)
Lemma js_add_exact a b : Z.abs (a + b) < 2 ^ 53 -> js_add a b = a + b.
Proof. apply round_double_small. Qed.

End NumberFacts.

Section ScorerFacts.

Context {lib : BlockLib}.

Lemma count_depths_below (bs : list Block) (lca : Block) (counts : list (option Z)) :
  Forall (fun b => height (header b) < height (header lca)) bs ->
  count_depths bs lca counts = counts.
Proof.
  induction 1 as [|b bs Hb _ IH]; simpl; [reflexivity|].
  destruct (decide (height (header b) < height (header lca))); [exact IH|lia].
Qed.

(** C9. When no block of the chain is at or above the height of [lca], the
    counts table stays empty, the depth loop ends at [-1] with sum [0],
    and [_getProofScore] returns [2^0 * 0 = 0]. *)
Theorem getProofScore_no_blocks_above (chain : BlockChain) (lca : Block) (m : Z) :
  Forall (fun b => height (header b) < height (header lca)) (blocks chain) ->
  count_depths (blocks chain) lca [] = []
  /\ scan_depths (count_depths (blocks chain) lca [])
       (length (count_depths (blocks chain) lca [])) 0 m = (-1, 0)
  /\ _getProofScore chain lca m = 0.
Proof.
  intros Hbelow.
  pose proof (count_depths_below _ _ [] Hbelow) as Hc.
  unfold _getProofScore. rewrite Hc. simpl.
  repeat split; reflexivity.
Qed.

(** C10. [_isBetterProof] is reflexive: both scores are taken against the
    same ancestor and the tie is broken with [>=]. *)
Theorem isBetterProof_refl (p : ChainProof) (m : Z) :
  _isBetterProof p p m = true.
Proof.
  unfold _isBetterProof.
  destruct (decide _) as [_|Hne]; [|congruence].
  apply bool_decide_eq_true. lia.
Qed.

End ScorerFacts.

(** Unfolding of the monad's primitives. *)
Ltac eng :=
  unfold bind, ret, get, modify, throw, putChainData, getChainData, getBlock,
    fire_head_changed, Assert_that in *.

(** *** Frames: what an operation leaves alone *)
Section Frame.

Context {lib : BlockLib}.
Variable R : LightChain -> LightChain -> Prop.
Hypothesis R_refl : forall s, R s s.
Hypothesis R_trans : forall s1 s2 s3, R s1 s2 -> R s2 s3 -> R s1 s3.
Hypothesis R_put : forall h d s, R s (with_store (<[h := d]> (_store s)) s).
Hypothesis R_truncate : forall s, R s (with_store ∅ s).
Hypothesis R_headHash : forall h s, R s (with_headHash h s).
Hypothesis R_mainChain : forall d s, R s (with_mainChain d s).
Hypothesis R_fired : forall e s, R s (with_fired e s).

Lemma respects_ret {A} (a : A) : respects R (ret a).
Proof. intros s. apply R_refl. Qed.

Lemma respects_throw {A} : respects R (@throw A).
Proof. intros s. apply R_refl. Qed.

Lemma respects_diverged {A} : respects R (fun _ => @Diverged A).
Proof. intros s. exact I. Qed.

Lemma respects_get : respects R get.
Proof. intros s. apply R_refl. Qed.

Lemma respects_getChainData h : respects R (getChainData h).
Proof. intros s. apply R_refl. Qed.

Lemma respects_getBlock h : respects R (getBlock h).
Proof. intros s. apply R_refl. Qed.

Lemma respects_bind {A B} (m : Eng A) (k : A -> Eng B) :
  respects R m -> (forall a, respects R (k a)) -> respects R (bind m k).
Proof.
  intros Hm Hk s. unfold bind. specialize (Hm s).
  destruct (m s) as [a s1|s1|]; [|exact Hm|exact I].
  specialize (Hk a s1).
  destruct (k a s1) as [b s2|s2|]; [| |exact I]; eapply R_trans; eauto.
Qed.

Lemma respects_putChainData h d : respects R (putChainData h d).
Proof. intros s. apply R_put. Qed.

Lemma respects_Assert_that c : respects R (Assert_that c).
Proof. destruct c; [apply respects_ret|apply respects_throw]. Qed.

Lemma respects_unset_main fuel :
  forall aliased headHash headData curHash,
    respects R (unset_main fuel aliased headHash headData curHash).
Proof.
  induction fuel as [|fuel IH]; intros aliased headHash headData curHash; simpl.
  - destruct (decide _); [apply respects_ret|apply respects_diverged].
  - destruct (decide _); [apply respects_ret|].
    apply respects_bind.
    { destruct aliased; [intros s; apply R_mainChain|apply respects_ret]. }
    intros _. apply respects_bind; [apply respects_putChainData|].
    intros _. apply respects_bind; [apply respects_getChainData|].
    intros [d|]; [apply IH|apply respects_throw].
Qed.

Lemma respects_set_fork l : respects R (set_fork l).
Proof.
  induction l as [|[h d] l IH]; simpl; [apply respects_ret|].
  apply respects_bind; [apply respects_putChainData|intros _; exact IH].
Qed.

Lemma respects_rebranch fuel blockHash chainData :
  respects R (_rebranch fuel blockHash chainData).
Proof.
  unfold _rebranch.
  apply respects_bind; [apply respects_get|]. intros s0.
  destruct (fork_walk _ _ _ _ _) as [curHash forkChain| |];
    [|apply respects_throw|apply respects_diverged].
  apply respects_bind; [apply respects_unset_main|intros _].
  apply respects_bind; [apply respects_set_fork|intros _].
  apply respects_bind; [intros s; apply R_mainChain|intros _].
  intros s; apply R_headHash.
Qed.

Lemma respects_pushBlockInternal fuel block blockHash prevData :
  respects R (_pushBlockInternal fuel block blockHash prevData).
Proof.
  unfold _pushBlockInternal. cbv zeta.
  apply respects_bind; [apply respects_get|]. intros s0.
  destruct (decide _).
  - apply respects_bind; [apply respects_putChainData|intros _].
    apply respects_bind; [intros s; apply R_mainChain|intros _].
    apply respects_bind; [intros s; apply R_headHash|intros _].
    apply respects_bind; [intros s; apply R_fired|intros _].
    apply respects_ret.
  - destruct (decide _).
    + apply respects_bind; [apply respects_rebranch|intros _].
      apply respects_bind; [intros s; apply R_fired|intros _].
      apply respects_ret.
    + apply respects_bind; [apply respects_putChainData|intros _].
      apply respects_ret.
Qed.

Lemma respects_pushBlock fuel block : respects R (_pushBlock fuel block).
Proof.
  unfold _pushBlock. cbv zeta.
  apply respects_bind; [apply respects_getBlock|].
  intros [b|]; [apply respects_ret|].
  apply respects_bind; [apply respects_getChainData|].
  intros [pd|]; [|apply respects_ret].
  destruct (decide _); [apply respects_ret|apply respects_pushBlockInternal].
Qed.

Lemma respects_pushHeader fuel hdr : respects R (pushHeader fuel hdr).
Proof.
  unfold pushHeader, _pushHeader. cbv zeta.
  apply respects_bind; [apply respects_getBlock|].
  intros [b|]; [apply respects_ret|].
  destruct (negb _); [apply respects_ret|].
  apply respects_bind; [apply respects_getChainData|].
  intros [pd|]; [|apply respects_ret].
  destruct (decide _); [apply respects_ret|].
  destruct (negb _); [apply respects_ret|].
  apply respects_bind; [apply respects_get|]. intros s0.
  destruct (_ && _); [apply respects_ret|].
  destruct (negb _); [apply respects_ret|].
  apply respects_pushBlockInternal.
Qed.

Lemma respects_push_suffix fuel sfx : respects R (push_suffix fuel sfx).
Proof.
  induction sfx as [|b sfx IH]; simpl; [apply respects_ret|].
  apply respects_bind; [apply respects_pushBlock|intros r].
  apply respects_bind; [apply respects_Assert_that|intros _; exact IH].
Qed.

Lemma respects_put_prefix bs : respects R (put_prefix bs).
Proof.
  induction bs as [|b bs IH]; simpl; [apply respects_ret|].
  apply respects_bind; [apply respects_putChainData|intros _; exact IH].
Qed.

Lemma respects_reset_to hd headHash proof : respects R (reset_to hd headHash proof).
Proof.
  unfold reset_to. cbv zeta.
  apply respects_bind; [intros s; apply R_truncate|intros _].
  apply respects_bind; [intros s; apply R_headHash|intros _].
  apply respects_bind; [intros s; apply R_mainChain|intros _].
  apply respects_bind; [apply respects_putChainData|intros _].
  apply respects_put_prefix.
Qed.

Lemma respects_acceptProof fuel proof sfx : respects R (_acceptProof fuel proof sfx).
Proof.
  unfold _acceptProof. cbv zeta.
  apply respects_bind; [apply respects_getChainData|]. intros o.
  apply respects_bind; [|intros _; apply respects_push_suffix].
  destruct o as [hd|]; [|apply respects_reset_to].
  destruct (decide _); [apply respects_reset_to|apply respects_ret].
Qed.

Lemma respects_pushProof fuel proof : respects R (pushProof fuel proof).
Proof.
  unfold pushProof, _pushProof.
  destruct (negb _); [apply respects_ret|].
  destruct (bad_suffix_length _); [apply respects_ret|].
  destruct (verify_suffix _ _) as [sfx|]; [|apply respects_ret].
  apply respects_bind; [apply respects_get|]. intros s0.
  destruct (_isBetterProof _ _ _); [|apply respects_ret].
  apply respects_bind; [apply respects_acceptProof|intros _; apply respects_ret].
Qed.

End Frame.

Section EngineFacts.

Context {lib : BlockLib}.

(** *** Result codes of the append path *)

Lemma pushBlockInternal_code fuel b h pd s r s' :
  _pushBlockInternal fuel b h pd s = Returned r s' ->
  r = OK_EXTENDED \/ r = OK_REBRANCHED \/ r = OK_FORKED.
Proof.
  unfold _pushBlockInternal. eng. simpl.
  destruct (decide _).
  - inversion 1; auto.
  - destruct (decide _).
    + destruct (_rebranch _ _ _ s); inversion 1; auto.
    + inversion 1; auto.
Qed.

Lemma pushHeader_known fuel hdr s d :
  _store s !! header_hash hdr = Some d ->
  pushHeader fuel hdr s = Returned OK_KNOWN s.
Proof.
  intros H. unfold pushHeader, _pushHeader. eng. rewrite H. reflexivity.
Qed.

Lemma pushHeader_bad_pow fuel hdr s :
  _store s !! header_hash hdr = None ->
  verifyProofOfWork hdr = false ->
  pushHeader fuel hdr s = Returned ERR_INVALID s.
Proof.
  intros H Hp. unfold pushHeader, _pushHeader. eng. rewrite H. simpl.
  rewrite Hp. reflexivity.
Qed.

Lemma pushHeader_orphan fuel hdr s :
  _store s !! header_hash hdr = None ->
  verifyProofOfWork hdr = true ->
  (_store s !! prevHash hdr = None
   \/ exists pd, _store s !! prevHash hdr = Some pd /\ totalDifficulty pd <= 0) ->
  pushHeader fuel hdr s = Returned ERR_ORPHAN s.
Proof.
  intros H Hp Ho. unfold pushHeader, _pushHeader. eng. rewrite H. simpl.
  rewrite Hp. simpl.
  destruct Ho as [Ho|(pd & Ho & Htd)]; rewrite Ho; [reflexivity|].
  destruct (decide _); [reflexivity|lia].
Qed.

Lemma pushHeader_checked fuel hdr s pd :
  _store s !! header_hash hdr = None ->
  verifyProofOfWork hdr = true ->
  _store s !! prevHash hdr = Some pd ->
  totalDifficulty pd > 0 ->
  pushHeader fuel hdr s =
    if header_checks s hdr pd
    then _pushBlockInternal fuel
           (mkBlock hdr (getNextInterlink (head pd) (target hdr)))
           (header_hash hdr) pd s
    else Returned ERR_INVALID s.
Proof.
  intros H Hp Hpd Htd. unfold pushHeader, _pushHeader, header_checks. eng.
  rewrite H. simpl. rewrite Hp. simpl. rewrite Hpd.
  destruct (decide _); [lia|].
  destruct (isImmediateSuccessorOf _ _); simpl; [|reflexivity].
  destruct (isValidTarget _ && _); simpl; [reflexivity|].
  destruct (bool_decide _); reflexivity.
Qed.

(** Every way [pushHeader] can go. *)
Lemma pushHeader_cases fuel hdr s :
  (exists d, _store s !! header_hash hdr = Some d
     /\ pushHeader fuel hdr s = Returned OK_KNOWN s)
  \/ (_store s !! header_hash hdr = None /\
      (pushHeader fuel hdr s = Returned ERR_INVALID s
       \/ pushHeader fuel hdr s = Returned ERR_ORPHAN s
       \/ exists pd,
            verifyProofOfWork hdr = true
            /\ _store s !! prevHash hdr = Some pd
            /\ totalDifficulty pd > 0
            /\ header_checks s hdr pd = true
            /\ pushHeader fuel hdr s =
                 _pushBlockInternal fuel
                   (mkBlock hdr (getNextInterlink (head pd) (target hdr)))
                   (header_hash hdr) pd s)).
Proof.
  destruct (_store s !! header_hash hdr) as [d|] eqn:Hk.
  { left. exists d. split; [reflexivity|]. eapply pushHeader_known; eauto. }
  right. split; [reflexivity|].
  destruct (verifyProofOfWork hdr) eqn:Hp.
  2:{ left. apply pushHeader_bad_pow; auto. }
  destruct (_store s !! prevHash hdr) as [pd|] eqn:Hpd.
  2:{ right; left. apply pushHeader_orphan; auto. }
  destruct (decide (totalDifficulty pd <= 0)).
  { right; left. apply pushHeader_orphan; eauto. }
  pose proof (pushHeader_checked fuel hdr s pd Hk Hp Hpd ltac:(lia)) as E.
  destruct (header_checks s hdr pd) eqn:Hc.
  - right; right. exists pd. repeat split; auto; lia.
  - left. exact E.
Qed.

(** *** Rejections leave the engine as it was *)

Lemma pushHeader_error_unchanged fuel hdr s r s' :
  pushHeader fuel hdr s = Returned r s' ->
  r = ERR_INVALID \/ r = ERR_ORPHAN ->
  s' = s.
Proof.
  intros Hrun Hr.
  destruct (pushHeader_cases fuel hdr s) as [(d & _ & E)|(_ & [E|[E|(pd & _ & _ & _ & _ & E)]])];
    rewrite E in Hrun.
  - inversion Hrun; subst; reflexivity.
  - inversion Hrun; subst; reflexivity.
  - inversion Hrun; subst; reflexivity.
  - apply pushBlockInternal_code in Hrun.
    unfold ERR_INVALID, ERR_ORPHAN, OK_EXTENDED, OK_REBRANCHED, OK_FORKED in *. lia.
Qed.

Lemma bad_suffix_length_true proof :
  bad_suffix_length proof = true <->
  suffix_length proof <> Policy_K
  /\ suffix_length proof <> height (proof_head proof) - 1.
Proof.
  unfold bad_suffix_length.
  rewrite andb_true_iff, !bool_decide_eq_true. reflexivity.
Qed.

Lemma bad_suffix_length_false proof :
  bad_suffix_length proof = false <->
  suffix_length proof = Policy_K
  \/ suffix_length proof = height (proof_head proof) - 1.
Proof.
  unfold bad_suffix_length.
  rewrite andb_false_iff, !bool_decide_eq_false. lia.
Qed.

Lemma pushProof_fails fuel proof s :
  verification_fails proof -> pushProof fuel proof s = Returned false s.
Proof.
  unfold pushProof, _pushProof. eng.
  intros [Hv|[Hl|Hs]].
  - rewrite Hv. reflexivity.
  - destruct (proof_verify proof); [simpl|reflexivity].
    apply bad_suffix_length_true in Hl. rewrite Hl. reflexivity.
  - destruct (proof_verify proof); [simpl|reflexivity].
    destruct (bad_suffix_length proof); [reflexivity|].
    rewrite Hs. reflexivity.
Qed.

Lemma pushProof_passes fuel proof s sfx :
  proof_verify proof = true ->
  bad_suffix_length proof = false ->
  verify_suffix (chain_head (prefix proof)) (headers (suffix proof)) = Some sfx ->
  pushProof fuel proof s =
    if _isBetterProof proof (_proof s) Policy_M
    then match _acceptProof fuel proof sfx s with
         | Returned _ s' => Returned true s'
         | Thrown s' => Thrown s'
         | Diverged => Diverged
         end
    else Returned true s.
Proof.
  intros Hv Hl Hs. unfold pushProof, _pushProof. eng.
  rewrite Hv, Hl, Hs. simpl.
  destruct (_isBetterProof _ _ _); [|reflexivity].
  destruct (_acceptProof _ _ _ s); reflexivity.
Qed.

Lemma verification_dec proof :
  verification_fails proof
  \/ exists sfx,
      proof_verify proof = true
      /\ bad_suffix_length proof = false
      /\ verify_suffix (chain_head (prefix proof)) (headers (suffix proof)) = Some sfx.
Proof.
  unfold verification_fails.
  destruct (proof_verify proof); [|auto].
  destruct (bad_suffix_length proof) eqn:Hl.
  { apply bad_suffix_length_true in Hl. auto. }
  destruct (verify_suffix _ _) as [sfx|]; [|auto].
  right. exists sfx. auto.
Qed.

Lemma passes_not_fails proof sfx :
  proof_verify proof = true ->
  bad_suffix_length proof = false ->
  verify_suffix (chain_head (prefix proof)) (headers (suffix proof)) = Some sfx ->
  ~ verification_fails proof.
Proof.
  intros Hv Hl Hs [H|[H|H]].
  - congruence.
  - apply bad_suffix_length_true in H. congruence.
  - congruence.
Qed.

Lemma pushProof_false_fails fuel proof s s' :
  pushProof fuel proof s = Returned false s' -> verification_fails proof.
Proof.
  intros Hrun.
  destruct (verification_dec proof) as [Hf|(sfx & Hv & Hl & Hs)]; [exact Hf|].
  rewrite (pushProof_passes fuel proof s sfx Hv Hl Hs) in Hrun.
  destruct (_isBetterProof _ _ _); [|discriminate].
  destruct (_acceptProof _ _ _ s); discriminate.
Qed.

Lemma pushBlock_orphan fuel block s :
  _store s !! block_hash block = None ->
  orphan s (header block) ->
  _pushBlock fuel block s = Returned ERR_ORPHAN s.
Proof.
  intros H Ho. unfold _pushBlock. eng. rewrite H. simpl.
  destruct Ho as [Ho|(pd & Ho & Htd)]; rewrite Ho; [reflexivity|].
  destruct (decide _); [reflexivity|lia].
Qed.

(** A verified, better proof on a stored, extendable prefix head whose
    first suffix block is new and has no extendable predecessor: the
    assertion of [_acceptProof] throws before anything is written. *)
Lemma pushProof_orphan_suffix fuel proof b rest s hd :
  verification_passes proof (b :: rest) ->
  _isBetterProof proof (_proof s) Policy_M = true ->
  _store s !! block_hash (chain_head (prefix proof)) = Some hd ->
  totalDifficulty hd > 0 ->
  _store s !! block_hash b = None ->
  orphan s (header b) ->
  pushProof fuel proof s = Thrown s.
Proof.
  intros (Hv & Hl & Hs) Hb Hhd Htd Hk Ho.
  apply bad_suffix_length_false in Hl.
  rewrite (pushProof_passes fuel proof s (b :: rest) Hv Hl Hs), Hb.
  unfold _acceptProof. eng. rewrite Hhd.
  destruct (decide _); [lia|]. simpl.
  unfold bind at 1. rewrite (pushBlock_orphan fuel b s Hk Ho).
  reflexivity.
Qed.

End EngineFacts.

(** ** The store under [_rebranch] *)

Section StoreFacts.

Lemma put_all_notin flag l : forall m h,
  h ∉ l.*1 -> put_all flag l m !! h = m !! h.
Proof.
  induction l as [|[h' d] l IH]; intros m h Hn; simpl; [reflexivity|].
  simpl in Hn. apply not_elem_of_cons in Hn as [Hne Hn].
  rewrite IH by exact Hn. apply lookup_insert_ne. congruence.
Qed.

Lemma put_all_in flag l : forall m h d,
  NoDup l.*1 -> (h, d) ∈ l ->
  put_all flag l m !! h = Some (set_onMainChain flag d).
Proof.
  induction l as [|[h' d'] l IH]; intros m h d Hnd Hin; simpl.
  - inversion Hin.
  - simpl in Hnd. apply NoDup_cons in Hnd as [Hfresh Hnd].
    apply elem_of_cons in Hin as [Heq|Hin].
    + inversion Heq; subst. rewrite put_all_notin by exact Hfresh.
      apply lookup_insert_eq.
    + apply IH; assumption.
Qed.

Lemma put_all_known flag l : forall m h,
  is_Some (m !! h) \/ h ∈ l.*1 -> is_Some (put_all flag l m !! h).
Proof.
  induction l as [|[h' d'] l IH]; intros m h H; simpl.
  - destruct H as [H|H]; [exact H|inversion H].
  - apply IH. simpl in H.
    destruct (decide (h' = h)) as [->|Hne].
    + left. rewrite lookup_insert_eq. eauto.
    + destruct H as [H|H].
      * left. rewrite lookup_insert_ne by exact Hne. exact H.
      * apply elem_of_cons in H as [H|H]; [congruence|right; exact H].
Qed.

Lemma set_fork_run l : forall s,
  set_fork l s = Returned tt (with_store (put_all true l (_store s)) s).
Proof.
  induction l as [|[h d] l IH]; intros s; simpl.
  - destruct s; reflexivity.
  - eng. simpl. rewrite IH. reflexivity.
Qed.

Lemma fork_walk_extends fuel store : forall curHash curData acc anc forkChain,
  fork_walk fuel store curHash curData acc = ForkFound anc forkChain ->
  exists rest, forkChain = acc ++ rest.
Proof.
  induction fuel as [|fuel IH]; intros curHash curData acc anc forkChain; simpl.
  - destruct (onMainChain curData); [|discriminate].
    inversion 1; subst. exists []. rewrite app_nil_r. reflexivity.
  - destruct (onMainChain curData).
    { inversion 1; subst. exists []. rewrite app_nil_r. reflexivity. }
    destruct (store !! _) as [d|]; [|discriminate].
    intros H. apply IH in H as [rest ->].
    exists ((curHash, curData) :: rest). rewrite <- app_assoc. reflexivity.
Qed.

(** A rebranch that returns has stored the block it rebranched to. *)
Lemma rebranch_stores fuel blockHash chainData s s' :
  onMainChain chainData = false ->
  _rebranch fuel blockHash chainData s = Returned tt s' ->
  is_Some (_store s' !! blockHash).
Proof.
  intros Hflag. unfold _rebranch. eng.
  destruct (fork_walk _ _ _ _ _) as [anc forkChain| |] eqn:Hw; [|discriminate..].
  assert (exists rest, forkChain = (blockHash, chainData) :: rest) as [rest ->].
  { destruct fuel as [|fuel]; simpl in Hw; rewrite Hflag in Hw; [discriminate|].
    destruct (_store s !! _); [|discriminate].
    apply fork_walk_extends in Hw as [rest ->]. exists rest. reflexivity. }
  destruct (unset_main _ _ _ _ _ s) as [[] s2|s2|]; [|discriminate..].
  rewrite set_fork_run. simpl. inversion 1; subst; simpl.
  apply put_all_known. right.
  rewrite fmap_reverse, elem_of_reverse. simpl. apply elem_of_cons. left; reflexivity.
Qed.

End StoreFacts.

(** ** Rejections: result codes, verdicts and the untouched state *)

Section Rejections.

Context {lib : BlockLib}.

(** C1 (as amended). [pushHeader] tests, in this order, whether the
    header is known, its proof of work, and its predecessor.  A known
    header is [OK_KNOWN]; a header not yet known that fails the proof of
    work check is [ERR_INVALID]; a header not yet known that passes it and
    whose predecessor is unknown or stored with [totalDifficulty <= 0] is
    [ERR_ORPHAN].  Each of the three whatever the later checks would say,
    and with the engine unchanged. *)
Theorem pushHeader_orphan_after_pow fuel hdr s :
  (is_Some (_store s !! header_hash hdr) ->
   pushHeader fuel hdr s = Returned OK_KNOWN s)
  /\ (_store s !! header_hash hdr = None ->
      verifyProofOfWork hdr = false ->
      pushHeader fuel hdr s = Returned ERR_INVALID s)
  /\ (_store s !! header_hash hdr = None ->
      verifyProofOfWork hdr = true ->
      orphan s hdr ->
      pushHeader fuel hdr s = Returned ERR_ORPHAN s).
Proof.
  split; [|split].
  - intros [d Hd]. eapply pushHeader_known; eauto.
  - intros Hk Hp. apply pushHeader_bad_pow; assumption.
  - intros Hk Hp Ho. apply pushHeader_orphan; assumption.
Qed.

(** C2 (as amended). [pushProof] returns [false] exactly when one of the
    three checks fails.  A proof that passes them never gets [false]: when
    it is not better than the engine's proof it gets [true] at once and
    nothing changes; when it is better, [pushProof] ends as [_acceptProof]
    ends: it returns [true] when the adoption returns, and throws when
    an assertion of the adoption fails.  The assertion does fail, with
    nothing written, for a better proof on a stored, extendable prefix
    head whose first suffix block is new and has no extendable
    predecessor. *)
Theorem pushProof_false_iff_verification_fails fuel proof s :
  ((exists s', pushProof fuel proof s = Returned false s') <-> verification_fails proof)
  /\ (forall sfx, verification_passes proof sfx ->
        (forall b s', pushProof fuel proof s = Returned b s' -> b = true)
        /\ (_isBetterProof proof (_proof s) Policy_M = false ->
            pushProof fuel proof s = Returned true s)
        /\ (_isBetterProof proof (_proof s) Policy_M = true ->
            pushProof fuel proof s
            = match _acceptProof fuel proof sfx s with
              | Returned _ s' => Returned true s'
              | Thrown s' => Thrown s'
              | Diverged => Diverged
              end)
        /\ (forall b rest hd,
              sfx = b :: rest ->
              _isBetterProof proof (_proof s) Policy_M = true ->
              _store s !! block_hash (chain_head (prefix proof)) = Some hd ->
              totalDifficulty hd > 0 ->
              _store s !! block_hash b = None ->
              orphan s (header b) ->
              pushProof fuel proof s = Thrown s)).
Proof.
  split.
  - split.
    + intros [s' Hrun]. eapply pushProof_false_fails; eauto.
    + intros Hf. exists s. apply pushProof_fails; assumption.
  - intros sfx Hpass. pose proof Hpass as (Hv & Hl & Hs).
    apply bad_suffix_length_false in Hl.
    pose proof (pushProof_passes fuel proof s sfx Hv Hl Hs) as E.
    split; [|split; [|split]].
    + intros b s' Hrun. destruct b; [reflexivity|].
      apply pushProof_false_fails in Hrun.
      exfalso. eapply passes_not_fails; eauto.
    + intros Hb. rewrite E, Hb. reflexivity.
    + intros Hb. rewrite E, Hb. reflexivity.
    + intros b rest hd -> Hb Hhd Htd Hk Ho.
      eapply pushProof_orphan_suffix; eauto.
Qed.

(** C5. A rejection changes nothing: when [pushHeader] returns
    [ERR_INVALID] or [ERR_ORPHAN], or [pushProof] returns [false], the
    engine (store, head hash, main chain, proof and the log of fired
    events) is the one before the call. *)
Theorem rejection_leaves_engine_unchanged fuel hdr proof s s' :
  (exists r, pushHeader fuel hdr s = Returned r s'
             /\ (r = ERR_INVALID \/ r = ERR_ORPHAN))
  \/ pushProof fuel proof s = Returned false s' ->
  _store s' = _store s
  /\ _headHash s' = _headHash s
  /\ _mainChain s' = _mainChain s
  /\ fired s' = fired s
  /\ s' = s.
Proof.
  intros H.
  assert (s' = s) as ->; [|repeat split; reflexivity].
  destruct H as [(r & Hrun & Hr)|Hrun].
  - eapply pushHeader_error_unchanged; eauto.
  - pose proof (pushProof_false_fails _ _ _ _ Hrun) as Hf.
    rewrite (pushProof_fails fuel proof s Hf) in Hrun.
    inversion Hrun; reflexivity.
Qed.

(** C8. For a proof that passes its own [verify]: a suffix whose length is
    neither [K] nor [proof.head.height - 1] is rejected; with either of
    the two lengths the length check lets the proof through, and it is
    rejected only if the interlink recomputation fails. *)
Theorem pushProof_suffix_length fuel proof s :
  proof_verify proof = true ->
  (suffix_length proof <> Policy_K
   /\ suffix_length proof <> height (proof_head proof) - 1 ->
   pushProof fuel proof s = Returned false s)
  /\ (suffix_length proof = Policy_K
      \/ suffix_length proof = height (proof_head proof) - 1 ->
      bad_suffix_length proof = false
      /\ ((exists s', pushProof fuel proof s = Returned false s') <->
          verify_suffix (chain_head (prefix proof)) (headers (suffix proof)) = None)).
Proof.
  intros Hv. split.
  - intros Hl. apply pushProof_fails. right; left. exact Hl.
  - intros Hl. split; [apply bad_suffix_length_false; exact Hl|].
    split.
    + intros [s' Hrun].
      destruct (pushProof_false_fails _ _ _ _ Hrun) as [H|[H|H]];
        [congruence|lia|exact H].
    + intros Hs. exists s. apply pushProof_fails. right; right. exact Hs.
Qed.

End Rejections.

(** ** Paths through the store and the two walks of [_rebranch] *)

Section Paths.

Lemma chain_path_lookup store flag anc : forall l h h' d,
  chain_path store flag h l anc -> (h', d) ∈ l ->
  store !! h' = Some d /\ onMainChain d = flag.
Proof.
  induction l as [|[h1 d1] l IH]; intros h h' d Hp Hin; simpl in Hp.
  - inversion Hin.
  - destruct Hp as (-> & Hl & Hf & Hp).
    apply elem_of_cons in Hin as [Heq|Hin].
    + inversion Heq; subst. auto.
    + eapply IH; eauto.
Qed.

Lemma chain_path_unique store flag anc : forall l1 l2 h,
  chain_path store flag h l1 anc -> chain_path store flag h l2 anc ->
  anc ∉ l1.*1 -> anc ∉ l2.*1 -> l1 = l2.
Proof.
  induction l1 as [|[h1 d1] l1 IH]; intros [|[h2 d2] l2] h H1 H2 N1 N2;
    simpl in *.
  - reflexivity.
  - destruct H2 as (-> & _). subst. exfalso. apply N2. left.
  - destruct H1 as (-> & _). subst. exfalso. apply N1. left.
  - destruct H1 as (-> & L1 & _ & P1). destruct H2 as (-> & L2 & _ & P2).
    assert (d1 = d2) as -> by congruence.
    f_equal. eapply IH; eauto.
    + intros H. apply N1. right. exact H.
    + intros H. apply N2. right. exact H.
Qed.

Lemma chain_path_suffix store flag anc : forall l1 l2 h,
  chain_path store flag h (l1 ++ l2) anc ->
  exists h', chain_path store flag h' l2 anc.
Proof.
  induction l1 as [|[h1 d1] l1 IH]; intros l2 h Hp; simpl in Hp.
  - eauto.
  - destruct Hp as (_ & _ & _ & Hp). eapply IH; eauto.
Qed.

(** A path that stays clear of its end never meets a hash twice. *)
Lemma chain_path_nodup store flag anc : forall l h,
  chain_path store flag h l anc -> anc ∉ l.*1 -> NoDup l.*1.
Proof.
  induction l as [|[h1 d1] l IH]; intros h Hp Hn; simpl.
  - constructor.
  - pose proof Hp as Hp0. simpl in Hp. destruct Hp as (-> & Hl & Hf & Hp).
    assert (anc ∉ l.*1) as Hn' by (intros H; apply Hn; right; exact H).
    constructor; [|eapply IH; eauto].
    intros Hin. apply list_elem_of_fmap in Hin as ([h2 d2] & Heq & Hin).
    simpl in Heq. subst h2.
    apply list_elem_of_split in Hin as (l1 & l2 & ->).
    pose proof Hp as Hs. apply chain_path_suffix in Hs as [h' Hs].
    pose proof Hs as Hs0. simpl in Hs0. destruct Hs0 as (<- & _).
    assert (anc ∉ ((h, d2) :: l2).*1) as Hn2.
    { intros H. apply Hn'. rewrite fmap_app. apply elem_of_app. right. exact H. }
    pose proof (chain_path_unique _ _ _ _ _ _ Hp0 Hs Hn Hn2) as Heq.
    apply (f_equal length) in Heq. simpl in Heq.
    rewrite length_app in Heq. simpl in Heq. lia.
Qed.

Lemma chain_path_insert store flag anc k v : forall l h,
  k ∉ l.*1 -> chain_path store flag h l anc ->
  chain_path (<[k := v]> store) flag h l anc.
Proof.
  induction l as [|[h1 d1] l IH]; intros h Hk Hp; simpl in *; [exact Hp|].
  destruct Hp as (-> & Hl & Hf & Hp).
  apply not_elem_of_cons in Hk as [Hne Hk].
  repeat split; auto.
  rewrite lookup_insert_ne by congruence. exact Hl.
Qed.

(** The first walk collects the new block and the fork, and stops at the
    ancestor. *)
Lemma fork_walk_path store anc ancData :
  store !! anc = Some ancData -> onMainChain ancData = true ->
  forall fork curHash curData acc fuel,
    onMainChain curData = false ->
    chain_path store false (prevHash (header (head curData))) fork anc ->
    (length fork < fuel)%nat ->
    fork_walk fuel store curHash curData acc
    = ForkFound anc (acc ++ (curHash, curData) :: fork).
Proof.
  intros Ha Hflag.
  induction fork as [|[h1 d1] fork IH]; intros curHash curData acc fuel Hc Hp Hlen;
    (destruct fuel as [|fuel]; [simpl in Hlen; lia|]); simpl in *; rewrite Hc.
  - rewrite Hp, Ha. destruct fuel; simpl; rewrite Hflag; reflexivity.
  - destruct Hp as (-> & Hl & Hf & Hp). rewrite Hl.
    rewrite (IH _ _ _ fuel Hf Hp) by lia.
    rewrite <- app_assoc. reflexivity.
Qed.

(** The second walk clears the flag along the main chain down to, and
    not including, the ancestor. *)
Lemma unset_main_path anc : forall main headHash headData aliased fuel s,
  chain_path (_store s) true headHash main anc ->
  anc ∉ main.*1 ->
  NoDup main.*1 ->
  is_Some (_store s !! anc) ->
  match main with [] => True | (_, d) :: _ => d = headData end ->
  (length main <= fuel)%nat ->
  unset_main fuel aliased headHash headData anc s
  = Returned tt
      (mkLightChain (put_all false main (_store s)) (_proof s) (_headHash s)
         (match main with
          | [] => _mainChain s
          | (_, d) :: _ => if aliased then set_onMainChain false d else _mainChain s
          end)
         (fired s)).
Proof.
  induction main as [|[h1 d1] main IH];
    intros headHash headData aliased fuel s Hp Hn Hnd Ha Hd Hlen; simpl in Hp.
  - subst headHash. destruct fuel; simpl;
      (destruct (decide (anc = anc)); [|congruence]); destruct s; reflexivity.
  - destruct Hp as (-> & Hl & Hf & Hp). subst headData.
    destruct fuel as [|fuel]; [simpl in Hlen; lia|].
    simpl in Hn. apply not_elem_of_cons in Hn as [Hne Hn].
    simpl in Hnd. apply NoDup_cons in Hnd as [Hfresh Hnd].
    simpl. destruct (decide (headHash = anc)); [congruence|].
    set (s2 := with_store (<[headHash := set_onMainChain false d1]> (_store s))
                 (if aliased then with_mainChain (set_onMainChain false d1) s else s)).
    assert (exists d', _store s2 !! prevHash (header (head d1)) = Some d'
                       /\ match main with [] => True | (_, d) :: _ => d = d' end)
      as (d' & Hd' & Hhd).
    { unfold s2. destruct aliased; simpl.
      all: destruct main as [|[h2 d2] main]; simpl in Hp.
      all: try (subst anc; destruct Ha as [ad Ha]; exists ad;
                rewrite lookup_insert_ne by congruence; auto).
      all: destruct Hp as (-> & Hl2 & _); exists d2;
           rewrite lookup_insert_ne; [auto|];
           intros ->; apply Hfresh; left. }
    assert (chain_path (_store s2) true (prevHash (header (head d1))) main anc) as Hp2.
    { unfold s2. destruct aliased; simpl; apply chain_path_insert; auto. }
    assert (is_Some (_store s2 !! anc)) as Ha2.
    { unfold s2. destruct aliased; simpl; rewrite lookup_insert_ne by congruence; auto. }
    pose proof (IH (prevHash (header (head d1))) d' false fuel s2
                  Hp2 Hn Hnd Ha2 Hhd ltac:(simpl in Hlen; lia)) as Hrun.
    eng. destruct aliased; simpl; fold s2.
    all: unfold s2 in Hd'; simpl in Hd'; rewrite Hd'; rewrite Hrun.
    all: unfold s2; simpl; destruct main as [|[? ?] ?]; reflexivity.
Qed.

End Paths.

(** ** The append path *)

Section AppendFacts.

Context {lib : BlockLib}.

Lemma rebranch_keeps_fired fuel blockHash chainData s s' :
  _rebranch fuel blockHash chainData s = Returned tt s' -> fired s' = fired s.
Proof.
  intros Hrun.
  pose proof (respects_rebranch (fun s s' => fired s' = fired s)
                ltac:(reflexivity) ltac:(intros; congruence)
                ltac:(reflexivity) ltac:(reflexivity) ltac:(reflexivity)
                fuel blockHash chainData s) as H.
  rewrite Hrun in H. exact H.
Qed.

Lemma pushBlockInternal_stores fuel b bh pd s r s' :
  _pushBlockInternal fuel b bh pd s = Returned r s' ->
  is_Some (_store s' !! bh).
Proof.
  unfold _pushBlockInternal. eng. simpl.
  destruct (decide _).
  - inversion 1; subst; simpl. rewrite lookup_insert_eq. eauto.
  - destruct (decide _).
    + destruct (_rebranch _ _ _ s) as [[] s2|s2|] eqn:Hr; [|discriminate..].
      inversion 1; subst; simpl.
      eapply rebranch_stores; [|exact Hr]. reflexivity.
    + inversion 1; subst; simpl. rewrite lookup_insert_eq. eauto.
Qed.



Lemma pushBlock_known fuel block s :
  is_Some (_store s !! block_hash block) ->
  _pushBlock fuel block s = Returned OK_KNOWN s.
Proof.
  intros [d H]. unfold _pushBlock. eng. rewrite H. reflexivity.
Qed.

Lemma pushBlock_appends fuel block s pd :
  _store s !! block_hash block = None ->
  _store s !! prevHash (header block) = Some pd ->
  totalDifficulty pd > 0 ->
  _pushBlock fuel block s = _pushBlockInternal fuel block (block_hash block) pd s.
Proof.
  intros H Hpd Htd. unfold _pushBlock. eng. rewrite H. simpl. rewrite Hpd.
  destruct (decide _); [lia|reflexivity].
Qed.

Lemma pushBlock_never_invalid fuel block s r s' :
  _pushBlock fuel block s = Returned r s' -> r <> ERR_INVALID.
Proof.
  destruct (_store s !! block_hash block) as [d|] eqn:Hk.
  { rewrite pushBlock_known by eauto. inversion 1; subst. discriminate. }
  destruct (_store s !! prevHash (header block)) as [pd|] eqn:Hpd.
  2:{ rewrite pushBlock_orphan by (auto; left; auto).
      inversion 1; subst. discriminate. }
  destruct (decide (totalDifficulty pd <= 0)).
  { rewrite pushBlock_orphan by (auto; right; eauto).
    inversion 1; subst. discriminate. }
  rewrite (pushBlock_appends fuel block s pd) by (auto; lia).
  intros H. apply pushBlockInternal_code in H.
  unfold ERR_INVALID, OK_EXTENDED, OK_REBRANCHED, OK_FORKED in *. lia.
Qed.

End AppendFacts.

(** ** Rebranching *)

Section Rebranch.

Context {lib : BlockLib}.

(** The run of a rebranch between a fork and a main chain that meet. *)
Lemma rebranch_run fuel block blockHash prevData s
    anc ancData fork main :
  let td := js_add (totalDifficulty prevData) (difficulty (header block)) in
  let chainData :=
    mkChainData block td (js_add (totalWork prevData) (realDifficulty blockHash)) false in
  _store s !! blockHash = None ->
  prevHash (header block) <> _headHash s ->
  td > totalDifficulty (_mainChain s) ->
  _store s !! _headHash s = Some (_mainChain s) ->
  chain_path (_store s) true (_headHash s) main anc ->
  anc ∉ main.*1 ->
  chain_path (_store s) false (prevHash (header block)) fork anc ->
  _store s !! anc = Some ancData ->
  onMainChain ancData = true ->
  (length fork < fuel)%nat ->
  (length main <= fuel)%nat ->
  exists s',
    _pushBlockInternal fuel block blockHash prevData s = Returned OK_REBRANCHED s'
    /\ _headHash s' = blockHash
    /\ _mainChain s' = set_onMainChain true chainData
    /\ (forall h d, (h, d) ∈ main ->
         _store s' !! h = Some (set_onMainChain false d))
    /\ (forall h d, (h, d) ∈ (blockHash, chainData) :: fork ->
         _store s' !! h = Some (set_onMainChain true d))
    /\ (forall h, h ∉ main.*1 -> h ∉ fork.*1 -> h <> blockHash ->
         _store s' !! h = _store s !! h)
    /\ fired s' = fired s ++ [block].
Proof.
  intros td chainData Hnew Hext Htd Hhead Hmain Hclear Hfork Hanc Hflag Hlf Hlm.
  (* the fork stays clear of the ancestor, which is flagged *)
  assert (anc ∉ fork.*1) as Hclear'.
  { intros Hin. apply list_elem_of_fmap in Hin as ([h d] & Heq & Hin).
    simpl in Heq; subst h.
    destruct (chain_path_lookup _ _ _ _ _ _ _ Hfork Hin) as [Hl Hf]. congruence. }
  pose proof (chain_path_nodup _ _ _ _ _ Hmain Hclear) as Hnd_main.
  pose proof (chain_path_nodup _ _ _ _ _ Hfork Hclear') as Hnd_fork.
  assert (blockHash ∉ fork.*1) as Hnew_fork.
  { intros Hin. apply list_elem_of_fmap in Hin as ([h d] & Heq & Hin).
    simpl in Heq; subst h.
    destruct (chain_path_lookup _ _ _ _ _ _ _ Hfork Hin) as [Hl _]. congruence. }
  assert (blockHash ∉ main.*1) as Hnew_main.
  { intros Hin. apply list_elem_of_fmap in Hin as ([h d] & Heq & Hin).
    simpl in Heq; subst h.
    destruct (chain_path_lookup _ _ _ _ _ _ _ Hmain Hin) as [Hl _]. congruence. }
  assert (forall h, h ∈ main.*1 -> h ∉ fork.*1) as Hdisj.
  { intros h Hin Hin'.
    apply list_elem_of_fmap in Hin as ([h1 d1] & Heq & Hin). simpl in Heq; subst h1.
    apply list_elem_of_fmap in Hin' as ([h2 d2] & Heq & Hin'). simpl in Heq; subst h2.
    destruct (chain_path_lookup _ _ _ _ _ _ _ Hmain Hin) as [Hl1 Hf1].
    destruct (chain_path_lookup _ _ _ _ _ _ _ Hfork Hin') as [Hl2 Hf2].
    congruence. }
  assert (match main with [] => True | (_, d) :: _ => d = _mainChain s end) as Hhd.
  { destruct main as [|[h d] main]; [exact I|].
    simpl in Hmain. destruct Hmain as (-> & Hl & _). congruence. }
  assert (NoDup (reverse ((blockHash, chainData) :: fork)).*1) as Hnd_all.
  { rewrite fmap_reverse, reverse_Permutation. simpl.
    apply NoDup_cons. split; assumption. }
  (* the run *)
  unfold _pushBlockInternal. fold td. fold chainData. eng. simpl.
  destruct (decide (prevHash (header block) = _headHash s)); [congruence|].
  destruct (decide (td > totalDifficulty (_mainChain s))); [|lia].
  unfold _rebranch. eng.
  rewrite (fork_walk_path (_store s) anc ancData Hanc Hflag fork
             blockHash chainData [] fuel eq_refl Hfork Hlf).
  rewrite (unset_main_path anc main (_headHash s) (_mainChain s) true fuel s
             Hmain Hclear Hnd_main ltac:(eauto) Hhd Hlm).
  rewrite set_fork_run. simpl.
  eexists. split; [reflexivity|]. simpl.
  split; [reflexivity|]. split; [reflexivity|].
  split; [|split; [|split; [|reflexivity]]].
  - intros h d Hin.
    assert (h ∈ main.*1) as Hh.
    { apply list_elem_of_fmap. exists (h, d). auto. }
    rewrite put_all_notin.
    + apply put_all_in; assumption.
    + rewrite fmap_reverse, elem_of_reverse. simpl.
      intros Hin'. apply elem_of_cons in Hin' as [->|Hin'];
        [contradiction|eapply Hdisj; eauto].
  - intros h d Hin.
    apply put_all_in; [exact Hnd_all|].
    rewrite elem_of_reverse. exact Hin.
  - intros h Hm Hf Hb.
    rewrite put_all_notin.
    + apply put_all_notin. exact Hm.
    + rewrite fmap_reverse, elem_of_reverse. simpl.
      intros Hin'. apply elem_of_cons in Hin' as [->|Hin']; contradiction.
Qed.


(** C4. A block that does not extend the head and whose total difficulty,
    the sum JavaScript forms of the predecessor's total and its own
    difficulty, beats the main chain's makes the engine rebranch; the two
    sums formed for the block are finite doubles.  With
    [fork] the stored blocks from the predecessor of the new block down to
    the common ancestor [anc], and [main] the main chain from the head down
    to [anc], both without [anc]: the result is [OK_REBRANCHED], the head
    hash is the new block's, every block of [main] is stored with
    [onMainChain = false], the new block and every block of [fork] with
    [onMainChain = true], the other entries are as before, and one event is
    fired, for the new head. *)
Theorem pushBlockInternal_rebranches fuel block blockHash prevData s
    anc ancData fork main :
  let td := js_add (totalDifficulty prevData) (difficulty (header block)) in
  let chainData :=
    mkChainData block td (js_add (totalWork prevData) (realDifficulty blockHash)) false in
  finite_sum (totalDifficulty prevData) (difficulty (header block)) ->
  finite_sum (totalWork prevData) (realDifficulty blockHash) ->
  _store s !! blockHash = None ->
  prevHash (header block) <> _headHash s ->
  td > totalDifficulty (_mainChain s) ->
  _store s !! _headHash s = Some (_mainChain s) ->
  chain_path (_store s) true (_headHash s) main anc ->
  anc ∉ main.*1 ->
  chain_path (_store s) false (prevHash (header block)) fork anc ->
  _store s !! anc = Some ancData ->
  onMainChain ancData = true ->
  (length fork < fuel)%nat ->
  (length main <= fuel)%nat ->
  exists s',
    _pushBlockInternal fuel block blockHash prevData s = Returned OK_REBRANCHED s'
    /\ _headHash s' = blockHash
    /\ _mainChain s' = set_onMainChain true chainData
    /\ (forall h d, (h, d) ∈ main ->
         _store s' !! h = Some (set_onMainChain false d))
    /\ (forall h d, (h, d) ∈ (blockHash, chainData) :: fork ->
         _store s' !! h = Some (set_onMainChain true d))
    /\ (forall h, h ∉ main.*1 -> h ∉ fork.*1 -> h <> blockHash ->
         _store s' !! h = _store s !! h)
    /\ fired s' = fired s ++ [block].
Proof.
  intros td chainData _ _. apply rebranch_run.
Qed.

End Rebranch.

(** ** Adoption with reset *)

Section Adoption.

Context {lib : BlockLib}.

Lemma last_nonempty {A} (l : list A) : forall x d1 d2,
  List.last (x :: l) d1 = List.last (x :: l) d2.
Proof.
  induction l as [|y l IH]; intros x d1 d2; [reflexivity|].
  change (List.last (y :: l) d1 = List.last (y :: l) d2). apply IH.
Qed.

Lemma last_hash_cons h b sfx :
  last_hash h (b :: sfx) = last_hash (block_hash b) sfx.
Proof.
  unfold last_hash. destruct sfx as [|b' sfx]; [reflexivity|].
  change (List.last (block_hash b' :: (block_hash <$> sfx)) h
          = List.last (block_hash b' :: (block_hash <$> sfx)) (block_hash b)).
  apply last_nonempty.
Qed.

Lemma put_prefix_run bs : forall s,
  exists s',
    put_prefix bs s = Returned tt s'
    /\ _headHash s' = _headHash s /\ _mainChain s' = _mainChain s
    /\ fired s' = fired s /\ _proof s' = _proof s
    /\ (forall h, h ∉ block_hash <$> bs -> _store s' !! h = _store s !! h)
    /\ (forall h, is_Some (_store s' !! h) ->
         is_Some (_store s !! h) \/ h ∈ block_hash <$> bs).
Proof.
  induction bs as [|b bs IH]; intros s; simpl.
  - exists s. repeat split; auto.
  - eng. simpl.
    destruct (IH (with_store (<[block_hash b := mkChainData b (-1) (-1) true]> (_store s)) s))
      as (s' & Hrun & Hh & Hm & Hf & Hp & Hout & Hdom).
    exists s'. rewrite Hrun. simpl in *.
    split; [reflexivity|]. split; [exact Hh|]. split; [exact Hm|].
    split; [exact Hf|]. split; [exact Hp|]. split.
    + intros h Hn. apply not_elem_of_cons in Hn as [Hne Hn].
      rewrite Hout by exact Hn. apply lookup_insert_ne. congruence.
    + intros h Hs. destruct (Hdom h Hs) as [Hs'|Hin].
      * destruct (decide (block_hash b = h)) as [<-|Hne].
        -- right. left.
        -- left. rewrite lookup_insert_ne in Hs' by exact Hne. exact Hs'.
      * right. right. exact Hin.
Qed.

(** On a main chain whose head is stored and extendable, a suffix of new
    blocks linked to the head is appended block by block. *)
Lemma push_suffix_extends fuel : forall sfx s,
  _store s !! _headHash s = Some (_mainChain s) ->
  totalDifficulty (_mainChain s) > 0 ->
  linked_from (_headHash s) sfx ->
  NoDup (block_hash <$> sfx) ->
  Forall (fun b => _store s !! block_hash b = None) sfx ->
  Forall (fun b => difficulty (header b) >= 0) sfx ->
  exists s',
    push_suffix fuel sfx s = Returned tt s'
    /\ _headHash s' = last_hash (_headHash s) sfx
    /\ _store s' !! _headHash s' = Some (_mainChain s')
    /\ fired s' = fired s ++ sfx.
Proof.
  induction sfx as [|b sfx IH]; intros s Hhead Htd Hlink Hnd Hnew Hdiff.
  - exists s. simpl. rewrite app_nil_r. auto.
  - simpl in Hlink. destruct Hlink as [Hprev Hlink].
    apply Forall_cons in Hnew as [Hb Hnew].
    apply Forall_cons in Hdiff as [Hdb Hdiff].
    simpl in Hnd. apply NoDup_cons in Hnd as [Hfresh Hnd].
    set (cd := mkChainData b
                 (js_add (totalDifficulty (_mainChain s)) (difficulty (header b)))
                 (js_add (totalWork (_mainChain s)) (realDifficulty (block_hash b))) true).
    set (s1 := mkLightChain (<[block_hash b := cd]> (_store s)) (_proof s)
                 (block_hash b) cd (fired s ++ [b])).
    assert (_pushBlock fuel b s = Returned OK_EXTENDED s1) as Hpush.
    { rewrite (pushBlock_appends fuel b s (_mainChain s)) by (auto; congruence).
      unfold _pushBlockInternal. eng. simpl.
      destruct (decide _); [reflexivity|congruence]. }
    destruct (IH s1) as (s' & Hrun & Hh & Hs & Hf).
    + simpl. apply lookup_insert_eq.
    + simpl. apply Z.lt_gt. apply js_add_pos; lia.
    + exact Hlink.
    + exact Hnd.
    + apply Forall_forall. intros b' Hin. simpl.
      rewrite lookup_insert_ne.
      * rewrite Forall_forall in Hnew. apply Hnew. exact Hin.
      * intros Heq. apply Hfresh. rewrite Heq.
        apply list_elem_of_fmap. exists b'. auto.
    + exact Hdiff.
    + exists s'. simpl. unfold bind at 1. rewrite Hpush.
      unfold bind at 1. simpl. rewrite Hrun.
      split; [reflexivity|]. split; [|split; [exact Hs|]].
      * rewrite Hh. simpl. rewrite last_hash_cons. reflexivity.
      * rewrite Hf. simpl. rewrite <- app_assoc. reflexivity.
Qed.

(** A verified, better proof whose prefix head is unknown to the store,
    or stored as a retrieval-only leaf, is adopted with a reset and
    [pushProof] returns [true]: the engine ends on the last suffix block,
    with one event per suffix block. *)
Lemma pushProof_adopts_with_reset fuel proof sfx s :
  verification_passes proof sfx ->
  _isBetterProof proof (_proof s) Policy_M = true ->
  not_extendable s (block_hash (chain_head (prefix proof))) ->
  difficulty (header (chain_head (prefix proof))) > 0 ->
  linked_from (block_hash (chain_head (prefix proof))) sfx ->
  NoDup (block_hash <$> (blocks (prefix proof) ++ sfx)) ->
  Forall (fun b => difficulty (header b) >= 0) sfx ->
  exists s',
    pushProof fuel proof s = Returned true s'
    /\ _headHash s' = last_hash (block_hash (chain_head (prefix proof))) sfx
    /\ fired s' = fired s ++ sfx.
Proof.
  intros (Hv & Hl & Hs) Hb Ho Hd Hlink Hnd Hdiff.
  apply bad_suffix_length_false in Hl.
  rewrite (pushProof_passes fuel proof s sfx Hv Hl Hs), Hb.
  unfold blocks in Hnd. rewrite <- app_assoc, !fmap_app in Hnd. simpl in Hnd.
  apply NoDup_app in Hnd as (Hnd_init & Hdisj & Hnd).
  apply NoDup_cons in Hnd as [Hhd Hnd].
  set (hd := chain_head (prefix proof)) in *.
  set (mc := mkChainData hd (difficulty (header hd)) (realDifficulty (block_hash hd)) true).
  set (s0 := mkLightChain (<[block_hash hd := mc]> ∅) (_proof s) (block_hash hd) mc (fired s)).
  destruct (put_prefix_run (chain_init (prefix proof)) s0)
    as (s1 & Hrun1 & Hh1 & Hm1 & Hf1 & _ & Hout1 & Hdom1).
  assert (reset_to hd (block_hash hd) proof s = Returned tt s1) as Hreset.
  { unfold reset_to. eng. simpl. fold mc. exact Hrun1. }
  destruct (push_suffix_extends fuel sfx s1) as (s' & Hrun & Hh & _ & Hf).
  - rewrite Hh1, Hm1. simpl. rewrite Hout1.
    + simpl. apply lookup_insert_eq.
    + intros Hin. eapply Hdisj; [exact Hin|]. left.
  - rewrite Hm1. simpl. lia.
  - rewrite Hh1. exact Hlink.
  - exact Hnd.
  - apply Forall_forall. intros b Hin.
    assert (block_hash b ∈ block_hash <$> sfx) as Hb'.
    { apply list_elem_of_fmap. exists b. auto. }
    destruct (_store s1 !! block_hash b) as [d|] eqn:Hlk; [|reflexivity].
    exfalso. destruct (Hdom1 (block_hash b) ltac:(eauto)) as [Hs0|Hin'].
    + simpl in Hs0. destruct (decide (block_hash hd = block_hash b)) as [Heq|Hne].
      * apply Hhd. rewrite Heq. exact Hb'.
      * rewrite lookup_insert_ne, lookup_empty in Hs0 by exact Hne.
        destruct Hs0; discriminate.
    + eapply Hdisj; [exact Hin'|]. right. exact Hb'.
  - exact Hdiff.
  - exists s'. unfold _acceptProof. eng. fold hd.
    assert (match
              match _store s !! block_hash hd with
              | Some headData =>
                  if decide (totalDifficulty headData <= 0)
                  then reset_to hd (block_hash hd) proof
                  else fun s => Returned () s
              | None => reset_to hd (block_hash hd) proof
              end s
            with
            | Returned _ s2 => push_suffix fuel sfx s2
            | Thrown s2 => Thrown s2
            | Diverged => Diverged
            end = Returned tt s') as ->.
    { destruct Ho as [Ho|(pd & Ho & Hpd)]; simpl in Ho; rewrite Ho.
      - rewrite Hreset. exact Hrun.
      - destruct (decide _); [|lia]. rewrite Hreset. exact Hrun. }
    split; [reflexivity|]. split.
    + rewrite Hh, Hh1. reflexivity.
    + rewrite Hf, Hf1. reflexivity.
Qed.

End Adoption.

(** ** Claims about sequences of calls and about the two append routes *)

Section Calls.

Context {lib : BlockLib}.

Lemma after_call_keeps_proof fuel c s s' :
  after_call fuel c s = Some s' -> _proof s' = _proof s.
Proof.
  destruct c as [proof|hdr]; simpl.
  - pose proof (respects_pushProof (fun s s' => _proof s' = _proof s)
                  ltac:(reflexivity) ltac:(intros; congruence)
                  ltac:(reflexivity) ltac:(reflexivity) ltac:(reflexivity)
                  ltac:(reflexivity) ltac:(reflexivity) fuel proof s) as H.
    destruct (pushProof fuel proof s); simpl; inversion 1; subst; exact H.
  - pose proof (respects_pushHeader (fun s s' => _proof s' = _proof s)
                  ltac:(reflexivity) ltac:(intros; congruence)
                  ltac:(reflexivity) ltac:(reflexivity) ltac:(reflexivity)
                  ltac:(reflexivity) fuel hdr s) as H.
    destruct (pushHeader fuel hdr s); simpl; inversion 1; subst; exact H.
Qed.

Lemma after_calls_keep_proof fuel cs : forall s s',
  after_calls fuel cs s = Some s' -> _proof s' = _proof s.
Proof.
  induction cs as [|c cs IH]; intros s s'; simpl.
  - inversion 1; reflexivity.
  - destruct (after_call fuel c s) as [s1|] eqn:Hc; [|discriminate].
    intros H. apply IH in H. apply after_call_keeps_proof in Hc. congruence.
Qed.

(** C3. No call writes [_proof]: after any sequence of [pushProof] and
    [pushHeader] calls on a new engine, adoptions included, [_proof] is
    still the genesis proof of the constructor, and a pushed proof is
    compared with that one. *)
Theorem proof_field_never_written fuel cs s' :
  after_calls fuel cs new_LightChain = Some s' ->
  _proof s' = genesis_proof
  /\ forall proof,
       _isBetterProof proof (_proof s') Policy_M
       = _isBetterProof proof genesis_proof Policy_M.
Proof.
  intros H. apply after_calls_keep_proof in H. simpl in H.
  split; [exact H|]. intros proof. rewrite H. reflexivity.
Qed.

(** C6. The route of the suffix blocks makes none of the header checks.
    Whatever the proof of work, succession, retargeting and interlink
    validators answer, [_pushBlock] and [_acceptProof] do the same; a
    block pushed by [_pushBlock] is never [ERR_INVALID]: it is
    [OK_KNOWN] when stored already, [ERR_ORPHAN] when its predecessor is
    unknown or has [totalDifficulty <= 0], and handed to
    [_pushBlockInternal] otherwise. *)
Theorem pushBlock_bypasses_header_validation
    pow succ next valid compact nextInterlink ilHash fuel block s :
  (@_pushBlock (with_validators lib pow succ next valid compact nextInterlink ilHash)
      fuel block s
   = @_pushBlock lib fuel block s)
  /\ (forall proof sfx,
        @_acceptProof (with_validators lib pow succ next valid compact nextInterlink ilHash)
          fuel proof sfx s
        = @_acceptProof lib fuel proof sfx s)
  /\ (forall r s', _pushBlock fuel block s = Returned r s' -> r <> ERR_INVALID)
  /\ (is_Some (_store s !! block_hash block) ->
      _pushBlock fuel block s = Returned OK_KNOWN s)
  /\ (_store s !! block_hash block = None -> orphan s (header block) ->
      _pushBlock fuel block s = Returned ERR_ORPHAN s)
  /\ (forall pd,
        _store s !! block_hash block = None ->
        _store s !! prevHash (header block) = Some pd ->
        totalDifficulty pd > 0 ->
        _pushBlock fuel block s
        = _pushBlockInternal fuel block (block_hash block) pd s).
Proof.
  split; [reflexivity|].
  split; [reflexivity|].
  split; [apply pushBlock_never_invalid|].
  split; [apply pushBlock_known|].
  split; [apply pushBlock_orphan|].
  intros pd. apply pushBlock_appends.
Qed.


End Calls.

(** * Further properties of the engine *)

(** ** The scorer's table *)

Section TallyFacts.

Context {lib : BlockLib}.

Lemma counts_get_set counts d v d' :
  counts_get (counts_set counts d v) d'
  = if decide (d = d') then Some v else counts_get counts d'.
Proof.
  unfold counts_get, counts_set.
  destruct (decide (d < length counts)%nat) as [Hlt|Hge].
  - destruct (decide (d = d')) as [<-|Hne].
    + rewrite list_lookup_insert_eq by exact Hlt. reflexivity.
    + rewrite list_lookup_insert_ne by exact Hne. reflexivity.
  - destruct (decide (d = d')) as [<-|Hne].
    + rewrite lookup_app_r by lia.
      rewrite lookup_app_r by (rewrite length_replicate; lia).
      rewrite length_replicate.
      replace (d - length counts - (d - length counts))%nat with 0%nat by lia.
      reflexivity.
    + destruct (decide (d' < length counts)%nat).
      * rewrite lookup_app_l by lia. reflexivity.
      * rewrite (lookup_ge_None_2 counts d') by lia.
        rewrite lookup_app_r by lia.
        destruct (decide (d' - length counts < d - length counts)%nat).
        -- rewrite lookup_app_l by (rewrite length_replicate; lia).
           rewrite lookup_replicate_2 by lia. reflexivity.
        -- rewrite lookup_app_r by (rewrite length_replicate; lia).
           rewrite length_replicate.
           rewrite lookup_ge_None_2 by (simpl; lia). reflexivity.
Qed.

Lemma length_counts_set counts d v :
  length (counts_set counts d v) = Nat.max (length counts) (S d).
Proof.
  unfold counts_set. destruct (decide _).
  - rewrite length_insert. lia.
  - rewrite !length_app, length_replicate. simpl. lia.
Qed.

Lemma count_at_set counts d v d' :
  count_at (counts_set counts d v) d'
  = if decide (d = d') then v else count_at counts d'.
Proof.
  unfold count_at, count_or. rewrite counts_get_set.
  destruct (decide (d = d')); [|reflexivity].
  destruct (decide (v = 0)); congruence.
Qed.

Lemma count_or_succ counts d :
  count_or counts d (fun c => c + 1) 1
  = if decide (count_at counts d = 0) then 1 else count_at counts d + 1.
Proof.
  unfold count_at, count_or.
  destruct (counts_get counts d) as [c|]; [|reflexivity].
  destruct (decide (c = 0)) as [->|Hne]; [reflexivity|].
  destruct (decide (c = 0)); [contradiction|reflexivity].
Qed.

Lemma count_at_past_end counts d :
  (length counts <= d)%nat -> count_at counts d = 0.
Proof.
  intros H. unfold count_at, count_or, counts_get.
  rewrite lookup_ge_None_2 by exact H. reflexivity.
Qed.

Lemma count_depths_cons b bs lca counts :
  count_depths (b :: bs) lca counts
  = if decide (height (header lca) <= height (header b))
    then count_depths bs lca (tally_block b counts)
    else count_depths bs lca counts.
Proof.
  simpl. destruct (decide (height (header b) < height (header lca)));
    destruct (decide (height (header lca) <= height (header b)));
    try lia; reflexivity.
Qed.


Lemma count_at_tally b counts d :
  count_at (tally_block b counts) d
  = if decide (depth_of b = d)
    then (if decide (count_at counts d = 0) then 1 else count_at counts d + 1)
    else count_at counts d.
Proof.
  unfold tally_block. rewrite count_at_set, count_or_succ.
  destruct (decide (depth_of b = d)) as [<-|]; reflexivity.
Qed.

Lemma length_tally b counts :
  length (tally_block b counts) = Nat.max (length counts) (S (depth_of b)).
Proof. apply length_counts_set. Qed.

Lemma tallied_nil : tallied [].
Proof. split; [intros d; reflexivity|congruence]. Qed.

Lemma tallied_tally b counts : tallied counts -> tallied (tally_block b counts).
Proof.
  intros [Hpos Htop]. split.
  - intros d. rewrite count_at_tally. specialize (Hpos d).
    repeat destruct (decide _); lia.
  - intros _. rewrite length_tally, count_at_tally.
    destruct (decide (depth_of b = _)) as [Heq|Hne].
    + pose proof (Hpos (Nat.max (length counts) (S (depth_of b)) - 1)%nat).
      destruct (decide _); lia.
    + assert (counts <> []) as Hnil by (intros ->; simpl in Hne; lia).
      replace (Nat.max (length counts) (S (depth_of b)) - 1)%nat
        with (length counts - 1)%nat
        by (destruct counts; [congruence|simpl in *; lia]).
      apply Htop. exact Hnil.
Qed.

Lemma tallied_count_depths bs lca : forall counts,
  tallied counts -> tallied (count_depths bs lca counts).
Proof.
  induction bs as [|b bs IH]; intros counts H; [exact H|].
  rewrite count_depths_cons. destruct (decide _); auto using tallied_tally.
Qed.

Lemma length_count_depths bs lca : forall counts,
  (length counts <= length (count_depths bs lca counts))%nat
  /\ (counted bs lca <> [] -> count_depths bs lca counts <> []).
Proof.
  induction bs as [|b bs IH]; intros counts.
  - split; [reflexivity|]. intros H. exfalso. apply H. reflexivity.
  - rewrite count_depths_cons. unfold counted. rewrite filter_cons.
    destruct (decide _) as [Hb|Hb].
    + destruct (IH (tally_block b counts)) as [Hlen _].
      rewrite length_tally in Hlen. split; [lia|].
      intros _ Hnil. rewrite Hnil in Hlen. simpl in Hlen. lia.
    + apply IH.
Qed.

(** The second loop never lowers the sum, and never leaves below [-1]. *)
Lemma scan_depths_bounds counts m : forall n sum,
  (forall d, 0 <= count_at counts d) ->
  -1 <= (scan_depths counts n sum m).1 /\ sum <= (scan_depths counts n sum m).2.
Proof.
  induction n as [|n IH]; intros sum Hpos; simpl; [lia|].
  fold (count_at counts n). specialize (Hpos n) as Hn.
  destruct (decide _); simpl; [lia|].
  specialize (IH (sum + count_at counts n) Hpos). lia.
Qed.

(** The second loop reads the table through [count_at] only. *)
Lemma scan_depths_ext c1 c2 m : forall n sum,
  (forall d, count_at c1 d = count_at c2 d) ->
  scan_depths c1 n sum m = scan_depths c2 n sum m.
Proof.
  induction n as [|n IH]; intros sum H; simpl; [reflexivity|].
  fold (count_at c1 n). fold (count_at c2 n). rewrite H.
  destruct (decide _); [reflexivity|]. apply IH. exact H.
Qed.

(** Below the threshold the loop runs to its end and sums everything. *)
Lemma scan_depths_no_break counts m : forall n sum,
  (forall d, 0 <= count_at counts d) ->
  sum + total counts n < m ->
  scan_depths counts n sum m = (-1, sum + total counts n).
Proof.
  induction n as [|n IH]; intros sum Hpos Hlt; simpl in *.
  - f_equal. lia.
  - fold (count_at counts n).
    assert (0 <= total counts n) as Ht.
    { clear -Hpos. induction n; simpl; [lia|]. specialize (Hpos n). lia. }
    destruct (decide _); [lia|].
    rewrite IH by (auto; lia). f_equal. lia.
Qed.

Lemma total_past_end counts : forall n,
  (length counts <= n)%nat -> total counts n = total counts (length counts).
Proof.
  induction n as [|n IH]; intros H.
  - destruct counts; [reflexivity|simpl in H; lia].
  - destruct (decide (length counts = S n)) as [->|Hne]; [reflexivity|].
    simpl. rewrite count_at_past_end by lia. rewrite IH by lia. lia.
Qed.

Lemma total_ext c1 c2 : forall n,
  (forall d, count_at c1 d = count_at c2 d) -> total c1 n = total c2 n.
Proof.
  induction n as [|n IH]; intros H; simpl; [reflexivity|].
  rewrite H, IH by exact H. reflexivity.
Qed.

Lemma total_tally b counts : forall n,
  (forall d, 0 <= count_at counts d) ->
  total (tally_block b counts) n
  = total counts n + (if decide (depth_of b < n)%nat then 1 else 0).
Proof.
  intros n Hpos. induction n as [|n IH]; simpl; [reflexivity|].
  rewrite IH, count_at_tally. specialize (Hpos n).
  destruct (decide (depth_of b = n)) as [Heq|Hne];
    repeat destruct (decide _); lia.
Qed.

Lemma total_count_depths bs lca : forall counts,
  tallied counts ->
  total (count_depths bs lca counts) (length (count_depths bs lca counts))
  = total counts (length counts) + Z.of_nat (length (counted bs lca)).
Proof.
  induction bs as [|b bs IH]; intros counts Ht.
  - simpl. lia.
  - rewrite count_depths_cons. unfold counted. rewrite filter_cons.
    destruct (decide _) as [Hb|Hb]; [|apply IH; exact Ht].
    rewrite IH by (apply tallied_tally; exact Ht).
    rewrite length_tally, total_tally by apply Ht.
    rewrite (total_past_end counts (Nat.max _ _)) by lia.
    destruct (decide _); [|lia]. simpl length. fold (counted bs lca). lia.
Qed.

Lemma same_tally_refl c : same_tally c c.
Proof. split; reflexivity. Qed.

Lemma same_tally_tally b c1 c2 :
  same_tally c1 c2 -> same_tally (tally_block b c1) (tally_block b c2).
Proof.
  intros [Hlen Hat]. split.
  - rewrite !length_tally, Hlen. reflexivity.
  - intros d. rewrite !count_at_tally, Hat. reflexivity.
Qed.

Lemma same_tally_swap a b c1 c2 :
  same_tally c1 c2 ->
  same_tally (tally_block a (tally_block b c1)) (tally_block b (tally_block a c2)).
Proof.
  intros [Hlen Hat]. split.
  - rewrite !length_tally, Hlen. lia.
  - intros d. rewrite !count_at_tally, Hat.
    repeat destruct (decide _); try lia; congruence.
Qed.

Lemma same_tally_trans c1 c2 c3 :
  same_tally c1 c2 -> same_tally c2 c3 -> same_tally c1 c3.
Proof.
  intros [L1 A1] [L2 A2]. split; [congruence|]. intros d. rewrite A1. apply A2.
Qed.

Lemma count_depths_Permutation bs1 bs2 lca :
  bs1 ≡ₚ bs2 ->
  forall c1 c2, same_tally c1 c2 ->
    same_tally (count_depths bs1 lca c1) (count_depths bs2 lca c2).
Proof.
  induction 1 as [|b l1 l2 _ IH|a b l|l1 l2 l3 _ IH1 _ IH2]; intros c1 c2 Hc.
  - exact Hc.
  - rewrite !count_depths_cons. destruct (decide _); auto using same_tally_tally.
  - rewrite !count_depths_cons.
    assert (forall c c', same_tally c c' ->
              same_tally (count_depths l lca c) (count_depths l lca c')) as Hl.
    { clear. induction l as [|x l IH]; intros c c' H; [exact H|].
      rewrite !count_depths_cons. destruct (decide _); auto using same_tally_tally. }
    repeat destruct (decide _); apply Hl;
      auto using same_tally_tally, same_tally_swap.
  - eapply same_tally_trans; [apply IH1; exact Hc|apply IH2; apply same_tally_refl].
Qed.

(** X1. [_getProofScore] is never negative, and it is 0 exactly when every
    block of the chain is below the height of [lca]. *)
Theorem getProofScore_zero_iff (chain : BlockChain) (lca : Block) (m : Z) :
  0 <= _getProofScore chain lca m
  /\ (_getProofScore chain lca m = 0 <->
      Forall (fun b => height (header b) < height (header lca)) (blocks chain)).
Proof.
  destruct (decide (Forall (fun b => height (header b) < height (header lca))
                      (blocks chain))) as [Hall|Hsome].
  - assert (_getProofScore chain lca m = 0) as E.
    { unfold _getProofScore. rewrite count_depths_below by exact Hall. reflexivity. }
    rewrite E. split; [lia|]. split; auto.
  - assert (counted (blocks chain) lca <> []) as Hc.
    { intros Hnil. apply Hsome. apply Forall_forall. intros b Hin.
      destruct (decide (height (header b) < height (header lca))) as [|Hge]; [assumption|].
      assert (b ∈ counted (blocks chain) lca) as Hb
        by (apply list_elem_of_filter; split; [lia|exact Hin]).
      rewrite Hnil in Hb. inversion Hb. }
    assert (1 <= _getProofScore chain lca m) as Hpos; [|split; [lia|split; [intros; exfalso; lia|intros; contradiction]]].
    unfold _getProofScore.
    pose proof (tallied_count_depths (blocks chain) lca [] tallied_nil) as [Hge Htop].
    destruct (length_count_depths (blocks chain) lca []) as [_ Hne].
    specialize (Hne Hc). specialize (Htop Hne).
    set (counts := count_depths (blocks chain) lca []) in *.
    destruct (length counts) as [|k] eqn:Hlen.
    { destruct counts; [congruence|discriminate]. }
    simpl in Htop. rewrite Nat.sub_0_r in Htop.
    simpl. fold (count_at counts k).
    destruct (decide _).
    + assert (0 < 2 ^ Z.max (Z.of_nat k) 0) by (apply Z.pow_pos_nonneg; lia). nia.
    + pose proof (scan_depths_bounds counts m k (0 + count_at counts k) Hge) as [Hd Hs].
      destruct (scan_depths counts k (0 + count_at counts k) m) as [depth sum].
      simpl in Hd, Hs.
      assert (0 < 2 ^ Z.max depth 0) by (apply Z.pow_pos_nonneg; lia). nia.
Qed.

(** X2. [_getProofScore] does not depend on the order of the blocks. *)
Theorem getProofScore_Permutation (chain1 chain2 : BlockChain) (lca : Block) (m : Z) :
  blocks chain1 ≡ₚ blocks chain2 ->
  _getProofScore chain1 lca m = _getProofScore chain2 lca m.
Proof.
  intros Hp. unfold _getProofScore.
  destruct (count_depths_Permutation _ _ lca Hp [] [] (same_tally_refl [])) as [Hlen Hat].
  rewrite Hlen. rewrite (scan_depths_ext _ _ m _ 0 Hat). reflexivity.
Qed.

(** X3. With fewer than [m] blocks at or above the height of [lca], the score
    is the number of those blocks. *)
Theorem getProofScore_below_threshold (chain : BlockChain) (lca : Block) (m : Z) :
  Z.of_nat (length (counted (blocks chain) lca)) < m ->
  _getProofScore chain lca m = Z.of_nat (length (counted (blocks chain) lca)).
Proof.
  intros Hlt. unfold _getProofScore.
  pose proof (total_count_depths (blocks chain) lca [] tallied_nil) as Ht.
  simpl in Ht.
  pose proof (tallied_count_depths (blocks chain) lca [] tallied_nil) as [Hge _].
  rewrite scan_depths_no_break by (auto; lia).
  rewrite Ht. change (2 ^ Z.max (-1) 0) with 1. lia.
Qed.

End TallyFacts.

(** ** The proof verifier *)

Section VerifierFacts.

Context {lib : BlockLib}.

(** X4. Of two proofs whose prefixes have the same ancestor whichever is
    asked first, one at least is better than the other; when each is
    better than the other they tie on the score and on the suffix
    difficulty. *)
Theorem isBetterProof_total (p1 p2 : ChainProof) (m : Z) :
  lowestCommonAncestor (prefix p1) (prefix p2)
  = lowestCommonAncestor (prefix p2) (prefix p1) ->
  (_isBetterProof p1 p2 m = true \/ _isBetterProof p2 p1 m = true)
  /\ (_isBetterProof p1 p2 m = true -> _isBetterProof p2 p1 m = true ->
      _getProofScore (prefix p1) (lowestCommonAncestor (prefix p1) (prefix p2)) m
      = _getProofScore (prefix p2) (lowestCommonAncestor (prefix p1) (prefix p2)) m
      /\ chain_totalDifficulty (suffix p1) = chain_totalDifficulty (suffix p2)).
Proof.
  intros Hsym. unfold _isBetterProof. rewrite <- Hsym.
  set (s1 := _getProofScore (prefix p1) _ m).
  set (s2 := _getProofScore (prefix p2) _ m).
  destruct (decide (s1 = s2)) as [Heq|Hne];
    destruct (decide (s2 = s1)) as [Heq'|Hne']; try congruence.
  - rewrite !bool_decide_eq_true. split; [lia|]. intros H1 H2. split; [exact Heq|lia].
  - rewrite !bool_decide_eq_true. split; [lia|]. intros H1 H2. lia.
Qed.

(** X5. The interlink loop of [_pushProof] succeeds exactly with the blocks
    made of the suffix headers, in order, each with the interlink computed
    from the block before it (the prefix head for the first) and hashing
    to the header's [interlinkHash]. *)
Theorem verify_suffix_iff (hd : Block) (hs : list BlockHeader) (sfx : list Block) :
  verify_suffix hd hs = Some sfx <->
  header <$> sfx = hs
  /\ interlinked hd sfx
  /\ Forall (fun b => interlinkHash (header b) = interlink_hash (interlink b)) sfx.
Proof.
  revert hd sfx. induction hs as [|h hs IH]; intros hd sfx; simpl.
  - split.
    + inversion 1; subst. repeat split; constructor.
    + intros (Hh & _ & _). destruct sfx; [reflexivity|discriminate].
  - destruct (decide _) as [Heq|Hne]; split.
    + destruct (verify_suffix _ hs) as [rest|] eqn:Hr; [|discriminate].
      simpl. inversion 1; subst sfx.
      apply IH in Hr as (Hh & Hi & Hf).
      split; [rewrite fmap_cons; f_equal; exact Hh|].
      split; [simpl; auto|constructor; auto].
    + intros (Hh & Hi & Hf). destruct sfx as [|[h' il] rest]; [discriminate|].
      simpl in Hh, Hi. inversion Hh; subst h' hs. destruct Hi as [-> Hi].
      apply Forall_cons in Hf as [_ Hf].
      rewrite (proj2 (IH (mkBlock h (getNextInterlink hd (target h))) rest));
        [reflexivity|auto].
    + discriminate.
    + intros (Hh & Hi & Hf). exfalso. destruct sfx as [|[h' il] rest]; [discriminate|].
      simpl in Hh, Hi. inversion Hh; subst h' hs. destruct Hi as [-> Hi].
      apply Forall_cons in Hf as [Hb _]. simpl in Hb. contradiction.
Qed.

End VerifierFacts.

(** ** What a push leaves behind *)

Section PushFacts.

Context {lib : BlockLib}.

Lemma put_all_last flag l h d : forall m,
  put_all flag (l ++ [(h, d)]) m !! h = Some (set_onMainChain flag d).
Proof.
  induction l as [|[h' d'] l IH]; intros m; simpl.
  - apply lookup_insert_eq.
  - apply IH.
Qed.

(** A rebranch that returns ends on the block it was called for. *)
Lemma rebranch_returned fuel blockHash chainData s s' :
  onMainChain chainData = false ->
  _rebranch fuel blockHash chainData s = Returned tt s' ->
  _headHash s' = blockHash
  /\ _mainChain s' = set_onMainChain true chainData
  /\ _store s' !! blockHash = Some (set_onMainChain true chainData)
  /\ fired s' = fired s.
Proof.
  intros Hflag Hrun.
  pose proof (rebranch_keeps_fired _ _ _ _ _ Hrun) as Hfired.
  revert Hrun. unfold _rebranch. eng.
  destruct (fork_walk _ _ _ _ _) as [anc forkChain| |] eqn:Hw; [|discriminate..].
  assert (exists rest, forkChain = (blockHash, chainData) :: rest) as [rest ->].
  { destruct fuel as [|fuel]; simpl in Hw; rewrite Hflag in Hw; [discriminate|].
    destruct (_store s !! _); [|discriminate].
    apply fork_walk_extends in Hw as [rest ->]. exists rest. reflexivity. }
  destruct (unset_main _ _ _ _ _ s) as [[] s2|s2|]; [|discriminate..].
  rewrite set_fork_run. simpl. inversion 1; subst; simpl.
  repeat split; auto.
  rewrite reverse_cons. apply put_all_last.
Qed.

(** The three ways [_pushBlockInternal] returns. *)
Lemma pushBlockInternal_returned fuel b bh pd s r s' :
  _pushBlockInternal fuel b bh pd s = Returned r s' ->
  (r = OK_EXTENDED
   /\ prevHash (header b) = _headHash s
   /\ s' = mkLightChain (<[bh := entry_for b bh pd true]> (_store s)) (_proof s) bh
             (entry_for b bh pd true) (fired s ++ [b]))
  \/ (r = OK_REBRANCHED
      /\ prevHash (header b) <> _headHash s
      /\ totalDifficulty (entry_for b bh pd true) > totalDifficulty (_mainChain s)
      /\ _headHash s' = bh
      /\ _mainChain s' = entry_for b bh pd true
      /\ _store s' !! bh = Some (entry_for b bh pd true)
      /\ fired s' = fired s ++ [b])
  \/ (r = OK_FORKED
      /\ prevHash (header b) <> _headHash s
      /\ totalDifficulty (entry_for b bh pd false) <= totalDifficulty (_mainChain s)
      /\ s' = with_store (<[bh := entry_for b bh pd false]> (_store s)) s).
Proof.
  unfold _pushBlockInternal. eng. simpl.
  destruct (decide _) as [Hext|Hext].
  - inversion 1; subst. left. auto.
  - destruct (decide _) as [Htd|Htd].
    + destruct (_rebranch _ _ _ s) as [[] s2|s2|] eqn:Hr; [|discriminate..].
      inversion 1; subst. right; left.
      apply rebranch_returned in Hr as (Hh & Hm & Hs & Hf); [|reflexivity].
      simpl. rewrite Hh, Hm, Hs, Hf. repeat split; auto.
    + inversion 1; subst. right; right. repeat split; auto; simpl; lia.
Qed.

(** X6. After [OK_EXTENDED] or [OK_REBRANCHED] the head is the pushed header
    with the interlink computed from its predecessor: [head], [headHash]
    and [height] read it, it is stored under its hash with the totals of
    the predecessor plus its own, added as JavaScript adds and finite, and
    flagged on the main chain, and it is the payload of the one event
    fired.  A rebranch strictly raises the total difficulty of the main
    chain. *)
Theorem pushHeader_new_head fuel hdr s r s' :
  finite_push s hdr ->
  pushHeader fuel hdr s = Returned r s' ->
  r = OK_EXTENDED \/ r = OK_REBRANCHED ->
  exists pd,
    _store s !! prevHash hdr = Some pd
    /\ totalDifficulty pd > 0
    /\ get_head s' = mkBlock hdr (getNextInterlink (head pd) (target hdr))
    /\ get_headHash s' = header_hash hdr
    /\ get_height s' = height hdr
    /\ _mainChain s'
       = entry_for (mkBlock hdr (getNextInterlink (head pd) (target hdr)))
           (header_hash hdr) pd true
    /\ _store s' !! header_hash hdr = Some (_mainChain s')
    /\ fired s' = fired s ++ [get_head s']
    /\ (r = OK_EXTENDED -> prevHash hdr = _headHash s)
    /\ (r = OK_REBRANCHED ->
        prevHash hdr <> _headHash s
        /\ totalDifficulty (_mainChain s') > totalDifficulty (_mainChain s)).
Proof.
  intros _ Hrun Hr.
  destruct (pushHeader_cases fuel hdr s)
    as [(d & _ & E)|(_ & [E|[E|(pd & _ & Hpd & Htd & _ & E)]])];
    rewrite E in Hrun;
    try (inversion Hrun; subst; destruct Hr; discriminate).
  exists pd. split; [exact Hpd|]. split; [exact Htd|].
  unfold get_head, get_headHash, get_height.
  apply pushBlockInternal_returned in Hrun
    as [(-> & Hp & ->)|[(-> & Hp & Hgt & Hh & Hm & Hs & Hf)|(-> & _)]]; simpl in *.
  - repeat split; auto; try discriminate. apply lookup_insert_eq.
  - rewrite Hm, Hh, Hs, Hf. simpl. repeat split; auto; discriminate.
  - destruct Hr; discriminate.
Qed.

(** X7. After any other result the head is the one before the call and no
    event is fired: [OK_FORKED] adds one entry, off the main chain and,
    with its totals added as JavaScript adds and finite, no heavier than
    it, and [OK_KNOWN], [ERR_INVALID] and [ERR_ORPHAN] change nothing at
    all. *)
Theorem pushHeader_head_kept fuel hdr s r s' :
  finite_push s hdr ->
  pushHeader fuel hdr s = Returned r s' ->
  r <> OK_EXTENDED -> r <> OK_REBRANCHED ->
  get_head s' = get_head s
  /\ get_headHash s' = get_headHash s
  /\ get_height s' = get_height s
  /\ fired s' = fired s
  /\ (r = OK_FORKED ->
      exists pd,
        _store s !! prevHash hdr = Some pd
        /\ _store s !! header_hash hdr = None
        /\ _store s'
           = <[header_hash hdr :=
                 entry_for (mkBlock hdr (getNextInterlink (head pd) (target hdr)))
                   (header_hash hdr) pd false]> (_store s)
        /\ js_add (totalDifficulty pd) (difficulty hdr)
           <= totalDifficulty (_mainChain s))
  /\ (r <> OK_FORKED -> s' = s).
Proof.
  intros _ Hrun Hne1 Hne2.
  destruct (pushHeader_cases fuel hdr s)
    as [(d & _ & E)|(Hk & [E|[E|(pd & _ & Hpd & Htd & _ & E)]])];
    rewrite E in Hrun;
    try (inversion Hrun; subst; repeat split; auto; discriminate).
  apply pushBlockInternal_returned in Hrun
    as [(-> & _)|[(-> & _)|(-> & Hp & Hle & ->)]]; try congruence.
  simpl in *. repeat split; auto.
  - intros _. exists pd. repeat split; auto.
  - congruence.
Qed.

(** X8. The two routes agree on a header that passes the checks: pushing it
    is pushing the block made of it and of the interlink computed from
    its predecessor. *)
Theorem pushHeader_is_pushBlock fuel hdr s pd :
  valid_header s hdr pd ->
  pushHeader fuel hdr s
  = _pushBlock fuel (mkBlock hdr (getNextInterlink (head pd) (target hdr))) s.
Proof.
  intros (Hk & Hp & Hpd & Htd & Hc).
  rewrite (pushHeader_checked fuel hdr s pd Hk Hp Hpd Htd), Hc.
  symmetry. apply (pushBlock_appends fuel (mkBlock hdr _) s pd); assumption.
Qed.

Lemma push_suffix_known fuel sfx : forall s,
  Forall (fun b => is_Some (_store s !! block_hash b)) sfx ->
  push_suffix fuel sfx s = Returned tt s.
Proof.
  induction sfx as [|b sfx IH]; intros s H; simpl; [reflexivity|].
  apply Forall_cons in H as [Hb H].
  unfold bind at 1. rewrite pushBlock_known by exact Hb.
  unfold bind at 1. simpl. apply IH. exact H.
Qed.

(** X9. A verified proof whose prefix head is stored and extendable and whose
    suffix blocks are all stored changes nothing, better or not:
    [pushProof] returns [true] on the engine as it was. *)
Theorem pushProof_known_blocks fuel proof sfx s pd :
  verification_passes proof sfx ->
  _store s !! block_hash (chain_head (prefix proof)) = Some pd ->
  totalDifficulty pd > 0 ->
  Forall (fun b => is_Some (_store s !! block_hash b)) sfx ->
  pushProof fuel proof s = Returned true s.
Proof.
  intros (Hv & Hl & Hs) Hpd Htd Hknown.
  apply bad_suffix_length_false in Hl.
  rewrite (pushProof_passes fuel proof s sfx Hv Hl Hs).
  destruct (_isBetterProof _ _ _); [|reflexivity].
  unfold _acceptProof. eng. rewrite Hpd.
  destruct (decide _); [lia|].
  rewrite push_suffix_known by exact Hknown. reflexivity.
Qed.

End PushFacts.

(** ** Invariants of the engine *)

Section InvariantFacts.

Context {lib : BlockLib}.

Lemma put_all_app flag l1 l2 : forall m,
  put_all flag (l1 ++ l2) m = put_all flag l2 (put_all flag l1 m).
Proof.
  induction l1 as [|[h d] l1 IH]; intros m; simpl; [reflexivity|apply IH].
Qed.

Lemma put_all_lookup_inv flag l : forall m h d,
  put_all flag l m !! h = Some d ->
  m !! h = Some d \/ exists d0, (h, d0) ∈ l /\ d = set_onMainChain flag d0.
Proof.
  induction l as [|[h1 d1] l IH]; intros m h d H; simpl in H; [auto|].
  apply IH in H as [H|(d0 & Hin & ->)].
  - destruct (decide (h1 = h)) as [->|Hne].
    + rewrite lookup_insert_eq in H. inversion H; subst.
      right. exists d1. split; [left|reflexivity].
    + rewrite lookup_insert_ne in H by exact Hne. auto.
  - right. exists d0. split; [right; exact Hin|reflexivity].
Qed.

(** Every pair the first walk collects was handed to it or read from the
    store. *)
Lemma fork_walk_entries fuel store : forall curHash curData acc anc forkChain,
  fork_walk fuel store curHash curData acc = ForkFound anc forkChain ->
  forall h d, (h, d) ∈ forkChain ->
    (h, d) ∈ acc \/ (h, d) = (curHash, curData) \/ store !! h = Some d.
Proof.
  induction fuel as [|fuel IH]; intros curHash curData acc anc forkChain; simpl.
  - destruct (onMainChain curData); [|discriminate].
    inversion 1; subst. auto.
  - destruct (onMainChain curData); [inversion 1; subst; auto|].
    destruct (store !! prevHash _) as [d'|] eqn:Hl; [|discriminate].
    intros Hw h d Hin.
    destruct (IH _ _ _ _ _ Hw h d Hin) as [Hacc|[Heq|Hs]]; [|inversion Heq; subst; auto|auto].
    apply elem_of_app in Hacc as [Hacc|Hacc]; [auto|].
    apply list_elem_of_singleton in Hacc. auto.
Qed.

Lemma state_after_bind {A B} (m : Eng A) (k : A -> Eng B) s s' :
  state_after (bind m k s) = Some s' ->
  m s = Thrown s'
  \/ exists a s1, m s = Returned a s1 /\ state_after (k a s1) = Some s'.
Proof.
  unfold bind. destruct (m s) as [a s1|s1|]; simpl.
  - eauto.
  - inversion 1; auto.
  - discriminate.
Qed.

(** *** Entries sit under the hash of their block *)

Lemma keyed_put h d s :
  keyed_by_hash s -> block_hash (head d) = h ->
  keyed_by_hash (with_store (<[h := d]> (_store s)) s).
Proof.
  intros [Hk Hh] Hd. split; [|exact Hh]. simpl. intros h' d' Hl.
  destruct (decide (h = h')) as [<-|Hne].
  - rewrite lookup_insert_eq in Hl. inversion Hl; subst. reflexivity.
  - rewrite lookup_insert_ne in Hl by exact Hne. eauto.
Qed.

Lemma keyed_unset_main fuel : forall aliased headHash headData curHash s s',
  keyed_by_hash s ->
  block_hash (head headData) = headHash ->
  (aliased = true -> headHash = _headHash s) ->
  state_after (unset_main fuel aliased headHash headData curHash s) = Some s' ->
  keyed_by_hash s'.
Proof.
  induction fuel as [|fuel IH]; intros aliased headHash headData curHash s s' Hk Hd Ha; simpl.
  - destruct (decide _); simpl; [inversion 1; subst; exact Hk|discriminate].
  - destruct (decide _); simpl; [inversion 1; subst; exact Hk|].
    set (s1 := if aliased then with_mainChain (set_onMainChain false headData) s else s).
    assert (keyed_by_hash s1) as Hk1.
    { unfold s1. destruct aliased; [|exact Hk].
      destruct Hk as [Hk Hh]. split; [exact Hk|]. simpl. rewrite Hd. auto. }
    set (s2 := with_store (<[headHash := set_onMainChain false headData]> (_store s1)) s1).
    assert (keyed_by_hash s2) as Hk2 by (apply keyed_put; auto).
    assert (forall k : unit -> Eng unit,
              bind (if aliased then modify (with_mainChain (set_onMainChain false headData))
                    else ret tt) k s = k tt s1) as E.
    { intros k. unfold s1. destruct aliased; reflexivity. }
    rewrite E. unfold bind, putChainData, getChainData, modify, throw. simpl.
    change (with_store (<[headHash := set_onMainChain false headData]> (_store s1)) s1)
      with s2.
    change (<[headHash := set_onMainChain false headData]> (_store s1)) with (_store s2).
    destruct (_store s2 !! prevHash (header (head headData))) as [d|] eqn:Hl.
    + apply IH; [exact Hk2| |discriminate]. destruct Hk2 as [Hk2 _]. eauto.
    + simpl. inversion 1; subst. exact Hk2.
Qed.

Lemma keyed_rebranch fuel blockHash chainData s s' :
  keyed_by_hash s ->
  block_hash (head chainData) = blockHash ->
  state_after (_rebranch fuel blockHash chainData s) = Some s' ->
  keyed_by_hash s'.
Proof.
  intros Hk Hd. unfold _rebranch. eng.
  destruct (fork_walk _ _ _ _ _) as [anc forkChain| |] eqn:Hw; simpl;
    [|inversion 1; subst; exact Hk|discriminate].
  pose proof (keyed_unset_main fuel true (_headHash s) (_mainChain s) anc s) as Hu.
  destruct (unset_main _ _ _ _ _ s) as [[] s2|s2|]; simpl in *; [| |discriminate].
  2:{ inversion 1; subst. apply Hu; auto. apply Hk. }
  specialize (Hu s2 Hk ltac:(apply Hk) ltac:(auto) eq_refl).
  rewrite set_fork_run. simpl. inversion 1; subst. clear H.
  destruct Hu as [Hk2 _]. split; simpl.
  - intros h d Hl. apply put_all_lookup_inv in Hl as [Hl|(d0 & Hin & ->)]; [eauto|].
    rewrite elem_of_reverse in Hin.
    destruct (fork_walk_entries _ _ _ _ _ _ _ Hw h d0 Hin) as [Hacc|[Heq|Hs]].
    + inversion Hacc.
    + inversion Heq; subst. reflexivity.
    + simpl. destruct Hk as [Hk _]. eauto.
  - destruct forkChain; reflexivity.
Qed.

Lemma keyed_pushBlockInternal fuel b pd s s' :
  keyed_by_hash s ->
  state_after (_pushBlockInternal fuel b (block_hash b) pd s) = Some s' ->
  keyed_by_hash s'.
Proof.
  intros Hk. unfold _pushBlockInternal. eng. simpl.
  destruct (decide _).
  - simpl. inversion 1; subst. split; simpl; [|reflexivity].
    apply (keyed_put (block_hash b) _ s Hk). reflexivity.
  - destruct (decide _).
    + pose proof (keyed_rebranch fuel (block_hash b)
                    (mkChainData b (js_add (totalDifficulty pd) (difficulty (header b)))
                       (js_add (totalWork pd) (realDifficulty (block_hash b))) false) s) as Hr.
      destruct (_rebranch _ _ _ s) as [[] s2|s2|]; simpl in *; [| |discriminate].
      * inversion 1; subst. destruct (Hr s2 Hk eq_refl eq_refl) as [H1 H2].
        split; assumption.
      * inversion 1; subst. apply Hr; auto.
    + simpl. inversion 1; subst. apply keyed_put; auto.
Qed.

Lemma keyed_pushBlock fuel b s s' :
  keyed_by_hash s -> state_after (_pushBlock fuel b s) = Some s' -> keyed_by_hash s'.
Proof.
  intros Hk. unfold _pushBlock. eng.
  destruct (_store s !! block_hash b); simpl; [inversion 1; subst; exact Hk|].
  destruct (_store s !! prevHash (header b)) as [pd|]; [|inversion 1; subst; exact Hk].
  destruct (decide _); [inversion 1; subst; exact Hk|].
  apply keyed_pushBlockInternal. exact Hk.
Qed.

Lemma keyed_pushHeader fuel hdr s s' :
  keyed_by_hash s -> state_after (pushHeader fuel hdr s) = Some s' -> keyed_by_hash s'.
Proof.
  intros Hk.
  destruct (pushHeader_cases fuel hdr s)
    as [(d & _ & E)|(_ & [E|[E|(pd & _ & _ & _ & _ & E)]])]; rewrite E;
    try (simpl; inversion 1; subst; exact Hk).
  apply (keyed_pushBlockInternal fuel (mkBlock hdr _) pd s s' Hk).
Qed.

Lemma keyed_push_suffix fuel sfx : forall s s',
  keyed_by_hash s -> state_after (push_suffix fuel sfx s) = Some s' -> keyed_by_hash s'.
Proof.
  induction sfx as [|b sfx IH]; intros s s' Hk; simpl.
  - inversion 1; subst; exact Hk.
  - intros H. apply state_after_bind in H as [H|(r & s1 & H & H')].
    + eapply keyed_pushBlock; [exact Hk|]. rewrite H. reflexivity.
    + assert (keyed_by_hash s1) as Hk1
        by (eapply keyed_pushBlock; [exact Hk|]; rewrite H; reflexivity).
      apply state_after_bind in H' as [H'|([] & s2 & H' & H'')].
      * unfold Assert_that in H'. destruct (bool_decide _); inversion H'; subst. exact Hk1.
      * unfold Assert_that in H'. destruct (bool_decide _); inversion H'; subst.
        eapply IH; eauto.
Qed.

Lemma keyed_put_prefix bs : forall s s',
  keyed_by_hash s -> state_after (put_prefix bs s) = Some s' -> keyed_by_hash s'.
Proof.
  induction bs as [|b bs IH]; intros s s' Hk; simpl.
  - inversion 1; subst; exact Hk.
  - eng. simpl. apply IH. apply keyed_put; auto.
Qed.

Lemma keyed_reset_to proof s s' :
  state_after (reset_to (chain_head (prefix proof))
                 (block_hash (chain_head (prefix proof))) proof s) = Some s' ->
  keyed_by_hash s'.
Proof.
  unfold reset_to. eng. simpl. apply keyed_put_prefix.
  split; simpl; [|reflexivity].
  intros h d Hl. destruct (decide (block_hash (chain_head (prefix proof)) = h)) as [<-|Hne].
  - rewrite lookup_insert_eq in Hl. inversion Hl; subst. reflexivity.
  - rewrite lookup_insert_ne, lookup_empty in Hl by exact Hne. discriminate.
Qed.

Lemma keyed_acceptProof fuel proof sfx s s' :
  keyed_by_hash s -> state_after (_acceptProof fuel proof sfx s) = Some s' ->
  keyed_by_hash s'.
Proof.
  intros Hk. unfold _acceptProof. intros H.
  apply state_after_bind in H as [H|(o & s0 & H & H')]; [discriminate|].
  unfold getChainData in H. inversion H; subst o s0. clear H.
  apply state_after_bind in H' as [H|([] & s1 & H & H')].
  - destruct (_store s !! _) as [hd|]; [destruct (decide _)|];
      try (eapply keyed_reset_to; rewrite H; reflexivity).
    discriminate.
  - eapply keyed_push_suffix; [|exact H'].
    destruct (_store s !! _) as [hd|]; [destruct (decide _)|];
      try (eapply keyed_reset_to; rewrite H; reflexivity).
    inversion H; subst. exact Hk.
Qed.

Lemma keyed_pushProof fuel proof s s' :
  keyed_by_hash s -> state_after (pushProof fuel proof s) = Some s' -> keyed_by_hash s'.
Proof.
  intros Hk. unfold pushProof, _pushProof.
  destruct (negb _); [inversion 1; subst; exact Hk|].
  destruct (bad_suffix_length _); [inversion 1; subst; exact Hk|].
  destruct (verify_suffix _ _) as [sfx|]; [|inversion 1; subst; exact Hk].
  eng. destruct (_isBetterProof _ _ _); [|inversion 1; subst; exact Hk].
  pose proof (keyed_acceptProof fuel proof sfx s) as Ha.
  destruct (_acceptProof fuel proof sfx s) as [[] s1|s1|]; simpl in *;
    [| |discriminate]; inversion 1; subst; apply Ha; auto.
Qed.

Lemma keyed_new : keyed_by_hash new_LightChain.
Proof.
  split; simpl; [|reflexivity]. intros h d Hl.
  destruct (decide (block_hash GENESIS = h)) as [<-|Hne].
  - rewrite lookup_singleton_eq in Hl. inversion Hl; subst. reflexivity.
  - rewrite lookup_singleton_ne in Hl by exact Hne. discriminate.
Qed.

(** X10. After any calls of [pushProof] and [pushHeader] on a new engine,
    returned or thrown, every entry of the store holds a block that hashes
    to its key, and [headHash] is the hash of [head]
    ([Block.GENESIS.HASH] being the hash of [Block.GENESIS]). *)
Theorem store_keyed_by_hash fuel cs s' :
  after_calls fuel cs new_LightChain = Some s' ->
  (forall h d, _store s' !! h = Some d -> block_hash (head d) = h)
  /\ block_hash (get_head s') = get_headHash s'.
Proof.
  assert (forall s, keyed_by_hash s -> after_calls fuel cs s = Some s' -> keyed_by_hash s') as H.
  { induction cs as [|c cs IH]; intros s Hk; simpl.
    - inversion 1; subst; exact Hk.
    - destruct (after_call fuel c s) as [s1|] eqn:Hc; [|discriminate].
      apply IH. destruct c as [proof|hdr]; simpl in Hc.
      + eapply keyed_pushProof; eauto.
      + eapply keyed_pushHeader; eauto. }
  intros Hrun. exact (H _ keyed_new Hrun).
Qed.

End InvariantFacts.

Section HeadFacts.

Context {lib : BlockLib}.

(** *** The head hash resolves to the main chain *)

Lemma set_onMainChain_id flag d : onMainChain d = flag -> set_onMainChain flag d = d.
Proof. destruct d; simpl; intros ->; reflexivity. Qed.

Lemma head_stored_unset_plain fuel : forall headHash headData curHash s s',
  head_stored s ->
  onMainChain (_mainChain s) = false ->
  _store s !! headHash = Some headData ->
  state_after (unset_main fuel false headHash headData curHash s) = Some s' ->
  head_stored s'.
Proof.
  induction fuel as [|fuel IH]; intros headHash headData curHash s s' Hs Hf Hl; simpl.
  - destruct (decide _); simpl; [inversion 1; subst; exact Hs|discriminate].
  - destruct (decide _); simpl; [inversion 1; subst; exact Hs|].
    unfold bind, ret, putChainData, getChainData, modify, throw. simpl.
    set (s2 := with_store (<[headHash := set_onMainChain false headData]> (_store s)) s).
    change (<[headHash := set_onMainChain false headData]> (_store s)) with (_store s2).
    assert (head_stored s2) as Hs2.
    { unfold head_stored, s2. simpl.
      destruct (decide (headHash = _headHash s)) as [->|Hne].
      - rewrite lookup_insert_eq. unfold head_stored in Hs.
        assert (headData = _mainChain s) as -> by congruence.
        rewrite set_onMainChain_id by exact Hf. reflexivity.
      - rewrite lookup_insert_ne by exact Hne. exact Hs. }
    destruct (_store s2 !! prevHash (header (head headData))) as [d|] eqn:Hl2.
    + apply IH; auto.
    + simpl. inversion 1; subst. exact Hs2.
Qed.

Lemma head_stored_unset_main fuel curHash s s' :
  head_stored s ->
  state_after (unset_main fuel true (_headHash s) (_mainChain s) curHash s) = Some s' ->
  head_stored s'.
Proof.
  intros Hs. destruct fuel as [|fuel]; simpl.
  - destruct (decide _); simpl; [inversion 1; subst; exact Hs|discriminate].
  - destruct (decide _); simpl; [inversion 1; subst; exact Hs|].
    unfold bind, ret, putChainData, getChainData, modify, throw. simpl.
    set (s2 := with_store (<[_headHash s := set_onMainChain false (_mainChain s)]> (_store s))
                 (with_mainChain (set_onMainChain false (_mainChain s)) s)).
    change (<[_headHash s := set_onMainChain false (_mainChain s)]> (_store s))
      with (_store s2).
    assert (head_stored s2) as Hs2 by (unfold head_stored, s2; simpl; apply lookup_insert_eq).
    destruct (_store s2 !! prevHash (header (head (_mainChain s)))) as [d|] eqn:Hl2.
    + apply head_stored_unset_plain; auto.
    + simpl. inversion 1; subst. exact Hs2.
Qed.

Lemma head_stored_rebranch fuel blockHash chainData s s' :
  head_stored s ->
  onMainChain chainData = false ->
  state_after (_rebranch fuel blockHash chainData s) = Some s' ->
  head_stored s'.
Proof.
  intros Hs Hflag Hrun.
  destruct (_rebranch fuel blockHash chainData s) as [[] s1|s1|] eqn:Hr;
    simpl in Hrun; inversion Hrun; subst.
  - apply rebranch_returned in Hr as (Hh & Hm & Hl & _); [|exact Hflag].
    unfold head_stored. rewrite Hh, Hm. exact Hl.
  - revert Hr. unfold _rebranch. eng.
    destruct (fork_walk _ _ _ _ _) as [anc forkChain| |]; [|inversion 1; subst; exact Hs|discriminate].
    pose proof (head_stored_unset_main fuel anc s) as Hu.
    destruct (unset_main _ _ _ _ _ s) as [[] s2|s2|]; simpl in *; [| |discriminate].
    + rewrite set_fork_run. discriminate.
    + inversion 1; subst. apply Hu; auto.
Qed.

Lemma head_stored_pushBlockInternal fuel b bh pd s s' :
  head_stored s ->
  _store s !! bh = None ->
  state_after (_pushBlockInternal fuel b bh pd s) = Some s' ->
  head_stored s'.
Proof.
  intros Hs Hnew. unfold _pushBlockInternal. eng. simpl.
  destruct (decide _).
  - simpl. inversion 1; subst. unfold head_stored. simpl. apply lookup_insert_eq.
  - destruct (decide _).
    + pose proof (head_stored_rebranch fuel bh
                    (mkChainData b (js_add (totalDifficulty pd) (difficulty (header b)))
                       (js_add (totalWork pd) (realDifficulty bh)) false) s) as Hr.
      destruct (_rebranch _ _ _ s) as [[] s2|s2|]; simpl in *; [| |discriminate];
        inversion 1; subst; exact (Hr _ Hs eq_refl eq_refl).
    + simpl. inversion 1; subst. unfold head_stored in *. simpl.
      rewrite lookup_insert_ne; [exact Hs|]. congruence.
Qed.

Lemma head_stored_pushBlock fuel b s s' :
  head_stored s -> state_after (_pushBlock fuel b s) = Some s' -> head_stored s'.
Proof.
  intros Hs. unfold _pushBlock. eng.
  destruct (_store s !! block_hash b) eqn:Hk; simpl; [inversion 1; subst; exact Hs|].
  destruct (_store s !! prevHash (header b)) as [pd|]; [|inversion 1; subst; exact Hs].
  destruct (decide _); [inversion 1; subst; exact Hs|].
  apply head_stored_pushBlockInternal; assumption.
Qed.

Lemma head_stored_pushHeader fuel hdr s s' :
  head_stored s -> state_after (pushHeader fuel hdr s) = Some s' -> head_stored s'.
Proof.
  intros Hs.
  destruct (pushHeader_cases fuel hdr s)
    as [(d & _ & E)|(Hk & [E|[E|(pd & _ & _ & _ & _ & E)]])]; rewrite E;
    try (simpl; inversion 1; subst; exact Hs).
  apply head_stored_pushBlockInternal; assumption.
Qed.

Lemma head_stored_push_suffix fuel sfx : forall s s',
  head_stored s -> state_after (push_suffix fuel sfx s) = Some s' -> head_stored s'.
Proof.
  induction sfx as [|b sfx IH]; intros s s' Hs; simpl.
  - inversion 1; subst; exact Hs.
  - intros H. apply state_after_bind in H as [H|(r & s1 & H & H')].
    + eapply head_stored_pushBlock; [exact Hs|]. rewrite H. reflexivity.
    + assert (head_stored s1) as Hs1
        by (eapply head_stored_pushBlock; [exact Hs|]; rewrite H; reflexivity).
      apply state_after_bind in H' as [H'|([] & s2 & H' & H'')].
      * unfold Assert_that in H'. destruct (bool_decide _); inversion H'; subst. exact Hs1.
      * unfold Assert_that in H'. destruct (bool_decide _); inversion H'; subst.
        eapply IH; eauto.
Qed.

Lemma head_stored_reset_to proof s s' :
  head_apart proof ->
  state_after (reset_to (chain_head (prefix proof))
                 (block_hash (chain_head (prefix proof))) proof s) = Some s' ->
  head_stored s'.
Proof.
  intros Hapart. unfold reset_to. eng. simpl.
  match goal with |- context [put_prefix _ ?s0] =>
    destruct (put_prefix_run (chain_init (prefix proof)) s0)
      as (s1 & Hrun & Hh & Hm & _ & _ & Hout & _) end.
  rewrite Hrun. simpl. inversion 1; subst.
  unfold head_stored. rewrite Hh, Hm. simpl.
  rewrite Hout by exact Hapart. simpl. apply lookup_insert_eq.
Qed.

Lemma head_stored_acceptProof fuel proof sfx s s' :
  head_apart proof -> head_stored s ->
  state_after (_acceptProof fuel proof sfx s) = Some s' ->
  head_stored s'.
Proof.
  intros Hapart Hs. unfold _acceptProof. intros H.
  apply state_after_bind in H as [H|(o & s0 & H & H')]; [discriminate|].
  unfold getChainData in H. inversion H; subst o s0. clear H.
  apply state_after_bind in H' as [H|([] & s1 & H & H')].
  - destruct (_store s !! _) as [hd|]; [destruct (decide _)|];
      try (eapply head_stored_reset_to; [exact Hapart|rewrite H; reflexivity]).
    discriminate.
  - eapply head_stored_push_suffix; [|exact H'].
    destruct (_store s !! _) as [hd|]; [destruct (decide _)|];
      try (eapply head_stored_reset_to; [exact Hapart|rewrite H; reflexivity]).
    inversion H; subst. exact Hs.
Qed.

Lemma head_stored_pushProof fuel proof s s' :
  head_apart proof -> head_stored s ->
  state_after (pushProof fuel proof s) = Some s' -> head_stored s'.
Proof.
  intros Hapart Hs. unfold pushProof, _pushProof.
  destruct (negb _); [inversion 1; subst; exact Hs|].
  destruct (bad_suffix_length _); [inversion 1; subst; exact Hs|].
  destruct (verify_suffix _ _) as [sfx|]; [|inversion 1; subst; exact Hs].
  eng. destruct (_isBetterProof _ _ _); [|inversion 1; subst; exact Hs].
  pose proof (head_stored_acceptProof fuel proof sfx s) as Ha.
  destruct (_acceptProof fuel proof sfx s) as [[] s1|s1|]; simpl in *;
    [| |discriminate]; inversion 1; subst; apply Ha; auto.
Qed.

(** X11. After any calls on a new engine, returned or thrown, [headHash]
    resolves through the store to the main chain data, and so [getBlock]
    of it is [head], provided no pushed proof has a prefix block that
    hashes like its prefix head. *)
Theorem head_hash_resolves fuel cs s' :
  Forall call_apart cs ->
  after_calls fuel cs new_LightChain = Some s' ->
  _store s' !! get_headHash s' = Some (_mainChain s')
  /\ head <$> _store s' !! get_headHash s' = Some (get_head s').
Proof.
  assert (forall s, Forall call_apart cs -> head_stored s ->
                    after_calls fuel cs s = Some s' -> head_stored s') as H.
  { induction cs as [|c cs IH]; intros s Hcs Hs; simpl.
    - inversion 1; subst; exact Hs.
    - apply Forall_cons in Hcs as [Hc Hcs].
      destruct (after_call fuel c s) as [s1|] eqn:Hrun; [|discriminate].
      apply IH; [exact Hcs|]. destruct c as [proof|hdr]; simpl in Hrun, Hc.
      + eapply head_stored_pushProof; eauto.
      + eapply head_stored_pushHeader; eauto. }
  intros Hcs Hrun.
  assert (head_stored s') as Hs.
  { apply (H new_LightChain); auto. unfold head_stored. simpl. apply lookup_singleton_eq. }
  unfold get_headHash, get_head. unfold head_stored in Hs. rewrite Hs. auto.
Qed.

End HeadFacts.

Section FlagFacts.

Context {lib : BlockLib}.

(** *** Pushes flip flags and add entries, nothing else *)

Lemma same_block_refl d : same_block d d.
Proof. repeat split. Qed.

Lemma same_block_trans d1 d2 d3 : same_block d1 d2 -> same_block d2 d3 -> same_block d1 d3.
Proof. intros (A & B & C) (A' & B' & C'). repeat split; congruence. Qed.

Lemma same_block_flag flag d : same_block d (set_onMainChain flag d).
Proof. repeat split. Qed.

Lemma flags_only_refl m : flags_only m m.
Proof. intros h. destruct (m !! h); [apply same_block_refl|exact I]. Qed.

Lemma flags_only_insert m0 m h d0 d' :
  flags_only m0 m -> m0 !! h = Some d0 -> same_block d0 d' ->
  flags_only m0 (<[h := d']> m).
Proof.
  intros Hf Hl Hs h'. destruct (decide (h = h')) as [<-|Hne].
  - rewrite Hl, lookup_insert_eq. exact Hs.
  - rewrite lookup_insert_ne by exact Hne. apply Hf.
Qed.

Lemma flags_only_lookup m0 m h d :
  flags_only m0 m -> m !! h = Some d -> exists d0, m0 !! h = Some d0 /\ same_block d0 d.
Proof.
  intros Hf Hl. specialize (Hf h). rewrite Hl in Hf.
  destruct (m0 !! h) as [d0|]; [eauto|contradiction].
Qed.

Lemma flags_only_new m0 m h v :
  m0 !! h = None -> flags_only m0 m -> flags_only m0 (delete h (<[h := v]> m)).
Proof.
  intros Hn Hf h'. destruct (decide (h = h')) as [<-|Hne].
  - rewrite Hn, lookup_delete_eq. exact I.
  - rewrite lookup_delete_ne, lookup_insert_ne by exact Hne. apply Hf.
Qed.

Lemma flags_only_put_all flag m0 l : forall m,
  flags_only m0 m ->
  (forall h d, (h, d) ∈ l -> exists d0, m0 !! h = Some d0 /\ same_block d0 d) ->
  flags_only m0 (put_all flag l m).
Proof.
  induction l as [|[h d] l IH]; intros m Hf Hl; simpl; [exact Hf|].
  apply IH.
  - destruct (Hl h d ltac:(left)) as (d0 & Hd0 & Hs).
    eapply flags_only_insert; [exact Hf|exact Hd0|].
    eapply same_block_trans; [exact Hs|apply same_block_flag].
  - intros h' d' Hin. apply Hl. right. exact Hin.
Qed.

Lemma flags_unset_main fuel m0 : forall aliased headHash headData curHash s s',
  flags_only m0 (_store s) ->
  _store s !! headHash = Some headData ->
  state_after (unset_main fuel aliased headHash headData curHash s) = Some s' ->
  flags_only m0 (_store s').
Proof.
  induction fuel as [|fuel IH]; intros aliased headHash headData curHash s s' Hf Hl; simpl.
  - destruct (decide _); simpl; [inversion 1; subst; exact Hf|discriminate].
  - destruct (decide _); simpl; [inversion 1; subst; exact Hf|].
    set (s1 := if aliased then with_mainChain (set_onMainChain false headData) s else s).
    assert (_store s1 = _store s) as Hs1 by (unfold s1; destruct aliased; reflexivity).
    assert (forall k : unit -> Eng unit,
              bind (if aliased then modify (with_mainChain (set_onMainChain false headData))
                    else ret tt) k s = k tt s1) as E.
    { intros k. unfold s1. destruct aliased; reflexivity. }
    rewrite E. unfold bind, putChainData, getChainData, modify, throw. simpl.
    set (s2 := with_store (<[headHash := set_onMainChain false headData]> (_store s1)) s1).
    change (<[headHash := set_onMainChain false headData]> (_store s1)) with (_store s2).
    assert (flags_only m0 (_store s2)) as Hf2.
    { unfold s2. simpl. rewrite Hs1.
      destruct (flags_only_lookup _ _ _ _ Hf Hl) as (d0 & Hd0 & Hs).
      eapply flags_only_insert; [exact Hf|exact Hd0|].
      eapply same_block_trans; [exact Hs|apply same_block_flag]. }
    destruct (_store s2 !! prevHash (header (head headData))) as [d|] eqn:Hl2.
    + apply IH; auto.
    + simpl. inversion 1; subst. exact Hf2.
Qed.

(** After the block the walk starts from, the fork is read from the store. *)
Lemma fork_walk_stored fuel store : forall curHash curData acc anc forkChain,
  store !! curHash = Some curData ->
  fork_walk fuel store curHash curData acc = ForkFound anc forkChain ->
  exists rest, forkChain = acc ++ rest /\ forall h d, (h, d) ∈ rest -> store !! h = Some d.
Proof.
  induction fuel as [|fuel IH]; intros curHash curData acc anc forkChain Hl; simpl.
  - destruct (onMainChain curData); [|discriminate].
    inversion 1; subst. exists []. rewrite app_nil_r. split; [reflexivity|].
    intros h d Hin. inversion Hin.
  - destruct (onMainChain curData).
    { inversion 1; subst. exists []. rewrite app_nil_r. split; [reflexivity|].
      intros h d Hin. inversion Hin. }
    destruct (store !! prevHash _) as [d'|] eqn:Hl'; [|discriminate].
    intros Hw. apply IH in Hw as (rest & -> & Hrest); [|exact Hl'].
    exists ((curHash, curData) :: rest). rewrite <- app_assoc. split; [reflexivity|].
    intros h d Hin. apply elem_of_cons in Hin as [Heq|Hin]; [|auto].
    inversion Heq; subst. exact Hl.
Qed.

Lemma flags_rebranch fuel blockHash chainData s s' :
  head_stored s ->
  _store s !! blockHash = None ->
  onMainChain chainData = false ->
  state_after (_rebranch fuel blockHash chainData s) = Some s' ->
  flags_only (_store s) (delete blockHash (_store s')).
Proof.
  intros Hs Hnew Hflag. unfold _rebranch. eng.
  assert (flags_only (_store s) (delete blockHash (_store s))) as Hsame.
  { rewrite delete_id by exact Hnew. apply flags_only_refl. }
  destruct (fork_walk _ _ _ _ _) as [anc forkChain| |] eqn:Hw; simpl;
    [|inversion 1; subst; exact Hsame|discriminate].
  assert (exists rest, forkChain = (blockHash, chainData) :: rest
                       /\ forall h d, (h, d) ∈ rest -> _store s !! h = Some d)
    as (rest & -> & Hrest).
  { destruct fuel as [|fuel]; simpl in Hw; rewrite Hflag in Hw; [discriminate|].
    destruct (_store s !! prevHash _) as [d'|] eqn:Hl'; [|discriminate].
    apply fork_walk_stored in Hw as (rest & -> & Hrest); [|exact Hl'].
    exists rest. auto. }
  pose proof (flags_unset_main fuel (_store s) true (_headHash s) (_mainChain s) anc s) as Hu.
  destruct (unset_main _ _ _ _ _ s) as [[] s2|s2|]; simpl in *; [| |discriminate].
  2:{ inversion 1; subst.
      assert (flags_only (_store s) (_store s')) as Hf
        by (apply Hu; auto using flags_only_refl).
      intros h. specialize (Hf h). destruct (decide (blockHash = h)) as [<-|Hne].
      - rewrite Hnew in *. rewrite lookup_delete_eq. exact I.
      - rewrite lookup_delete_ne by exact Hne. exact Hf. }
  specialize (Hu s2 (flags_only_refl _) Hs eq_refl).
  rewrite set_fork_run. simpl. inversion 1; subst. simpl.
  rewrite reverse_cons, put_all_app. simpl.
  apply flags_only_new; [exact Hnew|].
  apply flags_only_put_all; [exact Hu|].
  intros h d Hin. rewrite elem_of_reverse in Hin.
  exists d. split; [auto|apply same_block_refl].
Qed.

Lemma flags_pushBlockInternal fuel b bh pd s s' :
  head_stored s ->
  _store s !! bh = None ->
  state_after (_pushBlockInternal fuel b bh pd s) = Some s' ->
  flags_only (_store s) (delete bh (_store s')).
Proof.
  intros Hs Hnew. unfold _pushBlockInternal. eng. simpl.
  destruct (decide _).
  - simpl. inversion 1; subst. simpl.
    apply flags_only_new; [exact Hnew|apply flags_only_refl].
  - destruct (decide _).
    + pose proof (flags_rebranch fuel bh
                    (mkChainData b (js_add (totalDifficulty pd) (difficulty (header b)))
                       (js_add (totalWork pd) (realDifficulty bh)) false) s) as Hr.
      destruct (_rebranch _ _ _ s) as [[] s2|s2|]; simpl in *; [| |discriminate];
        inversion 1; subst; exact (Hr _ Hs Hnew eq_refl eq_refl).
    + simpl. inversion 1; subst. simpl.
      apply flags_only_new; [exact Hnew|apply flags_only_refl].
Qed.

(** [grows X s s']: every entry of [s] is still there in [s'] with its
    block and totals, and the keys that are new are in [X]. *)
Lemma flags_only_grows (X : list N) bh m m' :
  bh ∈ X ->
  flags_only m (delete bh m') ->
  (forall h d, m !! h = Some d -> exists d', m' !! h = Some d' /\ same_block d d')
  /\ (forall h, m !! h = None -> h ∉ X -> m' !! h = None).
Proof.
  intros HX Hf. split.
  - intros h d Hl. specialize (Hf h). rewrite Hl in Hf.
    destruct (decide (bh = h)) as [<-|Hne].
    + rewrite lookup_delete_eq in Hf. contradiction.
    + rewrite lookup_delete_ne in Hf by exact Hne.
      destruct (m' !! h) as [d'|]; [eauto|contradiction].
  - intros h Hl Hn. specialize (Hf h). rewrite Hl in Hf.
    assert (bh <> h) as Hne by (intros ->; contradiction).
    rewrite lookup_delete_ne in Hf by exact Hne.
    destruct (m' !! h); [contradiction|reflexivity].
Qed.

(** X12. Whether it returns or throws, [pushHeader] on an engine whose head
    hash resolves to its main chain never removes an entry, never changes
    the block or the totals of one, and adds no key but the hash of the
    header. *)
Theorem pushHeader_keeps_blocks fuel hdr s s' :
  head_stored s ->
  state_after (pushHeader fuel hdr s) = Some s' ->
  (forall h d, _store s !! h = Some d ->
     exists d', _store s' !! h = Some d' /\ same_block d d')
  /\ (forall h, _store s !! h = None -> h <> header_hash hdr -> _store s' !! h = None).
Proof.
  intros Hs Hrun.
  assert ((forall h d, _store s !! h = Some d ->
             exists d', _store s' !! h = Some d' /\ same_block d d')
          /\ (forall h, _store s !! h = None -> h ∉ [header_hash hdr] ->
                _store s' !! h = None)) as [H1 H2].
  { destruct (pushHeader_cases fuel hdr s)
      as [(d & _ & E)|(Hk & [E|[E|(pd & _ & _ & _ & _ & E)]])];
      rewrite E in Hrun;
      try (simpl in Hrun; inversion Hrun; subst;
           split; [intros h d0 Hl; exists d0; split; [exact Hl|apply same_block_refl]|auto]).
    apply (flags_only_grows [header_hash hdr] (header_hash hdr)); [left|].
    eapply flags_pushBlockInternal; eauto. }
  split; [exact H1|]. intros h Hl Hne. apply H2; [exact Hl|].
  intros Hin. apply list_elem_of_singleton in Hin. contradiction.
Qed.

End FlagFacts.

Section AdoptionFacts.

Context {lib : BlockLib}.

(** *** The suffix loop and the reset *)

Lemma pushBlock_grows fuel b s s' :
  head_stored s ->
  state_after (_pushBlock fuel b s) = Some s' ->
  (forall h d, _store s !! h = Some d ->
     exists d', _store s' !! h = Some d' /\ same_block d d')
  /\ (forall h, _store s !! h = None -> h ∉ [block_hash b] -> _store s' !! h = None).
Proof.
  intros Hs.
  assert (forall s0 : LightChain,
            (forall h d, _store s0 !! h = Some d ->
               exists d', _store s0 !! h = Some d' /\ same_block d d')
            /\ (forall h, _store s0 !! h = None -> h ∉ [block_hash b] ->
                  _store s0 !! h = None)) as Hid.
  { intros s0. split; [|auto]. intros h d Hl. exists d. split; [exact Hl|apply same_block_refl]. }
  unfold _pushBlock. eng.
  destruct (_store s !! block_hash b) eqn:Hk; simpl; [inversion 1; subst; apply Hid|].
  destruct (_store s !! prevHash (header b)) as [pd|]; [|inversion 1; subst; apply Hid].
  destruct (decide _); [inversion 1; subst; apply Hid|].
  intros Hrun. apply (flags_only_grows [block_hash b] (block_hash b)); [left|].
  eapply flags_pushBlockInternal; eauto.
Qed.

Lemma push_suffix_grows fuel sfx : forall s s',
  head_stored s ->
  state_after (push_suffix fuel sfx s) = Some s' ->
  (forall h d, _store s !! h = Some d ->
     exists d', _store s' !! h = Some d' /\ same_block d d')
  /\ (forall h, _store s !! h = None -> h ∉ block_hash <$> sfx -> _store s' !! h = None).
Proof.
  induction sfx as [|b sfx IH]; intros s s' Hs; simpl.
  - inversion 1; subst. split; [|auto].
    intros h d Hl. exists d. split; [exact Hl|apply same_block_refl].
  - intros H.
    assert (forall s1, state_after (_pushBlock fuel b s) = Some s1 ->
              (forall h d, _store s !! h = Some d ->
                 exists d', _store s1 !! h = Some d' /\ same_block d d')
              /\ (forall h, _store s !! h = None -> h ∉ block_hash <$> b :: sfx ->
                    _store s1 !! h = None)) as Hfirst.
    { intros s1 H1. destruct (pushBlock_grows fuel b s s1 Hs H1) as [G1 G2].
      split; [exact G1|]. intros h Hl Hn. apply G2; [exact Hl|].
      intros Hin. apply Hn. apply list_elem_of_singleton in Hin. subst. left. }
    apply state_after_bind in H as [H|(r & s1 & H & H')].
    { apply Hfirst. rewrite H. reflexivity. }
    assert (state_after (_pushBlock fuel b s) = Some s1) as H1 by (rewrite H; reflexivity).
    destruct (Hfirst s1 H1) as [G1 G2].
    apply state_after_bind in H' as [H'|([] & s2 & H' & H'')];
      unfold Assert_that in H'; destruct (bool_decide _); inversion H'; subst.
    + split; assumption.
    + destruct (IH s2 s' (head_stored_pushBlock _ _ _ _ Hs H1) H'') as [G1' G2'].
      split.
      * intros h d Hl. destruct (G1 h d Hl) as (d1 & Hl1 & S1).
        destruct (G1' h d1 Hl1) as (d2 & Hl2 & S2).
        exists d2. split; [exact Hl2|eapply same_block_trans; eauto].
      * intros h Hl Hn. apply G2'; [apply G2; auto|].
        intros Hin. apply Hn. right. exact Hin.
Qed.

Lemma pushBlock_accepted fuel b s r s1 :
  _pushBlock fuel b s = Returned r s1 -> r >= 0 -> is_Some (_store s1 !! block_hash b).
Proof.
  unfold _pushBlock. eng.
  destruct (_store s !! block_hash b) eqn:Hk; simpl.
  { inversion 1; subst. rewrite Hk. eauto. }
  destruct (_store s !! prevHash (header b)) as [pd|].
  2:{ inversion 1; subst. unfold ERR_ORPHAN. lia. }
  destruct (decide _); [inversion 1; subst; unfold ERR_ORPHAN; lia|].
  intros H _. eapply pushBlockInternal_stores; eauto.
Qed.

Lemma push_suffix_stores fuel sfx : forall s s',
  head_stored s ->
  push_suffix fuel sfx s = Returned tt s' ->
  Forall (fun b => is_Some (_store s' !! block_hash b)) sfx.
Proof.
  induction sfx as [|b sfx IH]; intros s s' Hs; simpl; [constructor|].
  unfold bind at 1. destruct (_pushBlock fuel b s) as [r s1|s1|] eqn:H1; [|discriminate..].
  unfold bind at 1. unfold Assert_that.
  destruct (bool_decide (r >= 0)) eqn:Hr; [|discriminate].
  simpl. intros Hrest. apply bool_decide_eq_true in Hr.
  assert (head_stored s1) as Hs1
    by (eapply head_stored_pushBlock; [exact Hs|rewrite H1; reflexivity]).
  constructor; [|eapply IH; eauto].
  destruct (pushBlock_accepted _ _ _ _ _ H1 Hr) as [d Hd].
  destruct (push_suffix_grows fuel sfx s1 s' Hs1 ltac:(rewrite Hrest; reflexivity)) as [G _].
  destruct (G _ _ Hd) as (d' & Hd' & _). eauto.
Qed.

Lemma put_prefix_leaves bs : forall s s' h,
  put_prefix bs s = Returned tt s' ->
  (exists d, _store s !! h = Some d /\ totalDifficulty d = -1 /\ totalWork d = -1)
  \/ h ∈ block_hash <$> bs ->
  exists d, _store s' !! h = Some d /\ totalDifficulty d = -1 /\ totalWork d = -1.
Proof.
  induction bs as [|b bs IH]; intros s s' h; simpl.
  - intros Hrun [Hx|Hx]; inversion Hrun; subst; [exact Hx|inversion Hx].
  - eng. simpl. intros Hrun Hh. eapply IH; [exact Hrun|]. simpl.
    destruct (decide (block_hash b = h)) as [<-|Hne].
    + left. rewrite lookup_insert_eq. eauto.
    + rewrite lookup_insert_ne by exact Hne.
      destruct Hh as [Hh|Hh]; [left; exact Hh|].
      apply elem_of_cons in Hh as [Hh|Hh]; [congruence|right; exact Hh].
Qed.

(** What the reset of [_acceptProof] leaves. *)
Lemma reset_to_run proof s :
  head_apart proof ->
  exists s0,
    reset_to (chain_head (prefix proof)) (block_hash (chain_head (prefix proof))) proof s
    = Returned tt s0
    /\ head_stored s0
    /\ _headHash s0 = block_hash (chain_head (prefix proof))
    /\ totalDifficulty (_mainChain s0) = difficulty (header (chain_head (prefix proof)))
    /\ (forall p, p ∈ chain_init (prefix proof) ->
          exists d, _store s0 !! block_hash p = Some d
                    /\ totalDifficulty d = -1 /\ totalWork d = -1)
    /\ (forall h, is_Some (_store s0 !! h) -> h ∈ block_hash <$> blocks (prefix proof)).
Proof.
  intros Hapart. unfold reset_to. eng. simpl.
  match goal with |- context [put_prefix _ ?s0] =>
    destruct (put_prefix_run (chain_init (prefix proof)) s0)
      as (s1 & Hrun & Hh & Hm & _ & _ & Hout & Hdom) end.
  exists s1. split; [exact Hrun|]. simpl in *.
  split; [|split; [exact Hh|split; [rewrite Hm; reflexivity|split]]].
  - unfold head_stored. rewrite Hh, Hm, Hout by exact Hapart. apply lookup_insert_eq.
  - intros p Hp. eapply put_prefix_leaves; [exact Hrun|].
    right. apply list_elem_of_fmap. exists p. auto.
  - intros h Hsome. unfold blocks. rewrite fmap_app. apply elem_of_app.
    destruct (Hdom h Hsome) as [H|H]; [|left; exact H].
    right. simpl. destruct (decide (block_hash (chain_head (prefix proof)) = h)) as [<-|Hne].
    + left.
    + rewrite lookup_insert_ne, lookup_empty in H by exact Hne. destruct H; discriminate.
Qed.

(** The two ways [_acceptProof] gets to its suffix loop. *)
Lemma acceptProof_returned fuel proof sfx s s' :
  head_apart proof -> head_stored s ->
  _acceptProof fuel proof sfx s = Returned tt s' ->
  exists s0,
    head_stored s0
    /\ push_suffix fuel sfx s0 = Returned tt s'
    /\ ((exists pd, _store s !! block_hash (chain_head (prefix proof)) = Some pd
                    /\ totalDifficulty pd > 0 /\ s0 = s)
        \/ (not_extendable s (block_hash (chain_head (prefix proof)))
            /\ reset_to (chain_head (prefix proof))
                 (block_hash (chain_head (prefix proof))) proof s = Returned tt s0)).
Proof.
  intros Hapart Hs. unfold _acceptProof. eng.
  destruct (reset_to_run proof s Hapart) as (s0 & Hreset & Hs0 & _).
  destruct (_store s !! block_hash (chain_head (prefix proof))) as [pd|] eqn:Hl.
  - destruct (decide (totalDifficulty pd <= 0)).
    + rewrite Hreset. intros Hrun. exists s0. repeat split; auto.
      right. split; [right; eauto|reflexivity].
    + intros Hrun. exists s. repeat split; auto. left. exists pd. repeat split; auto. lia.
  - rewrite Hreset. intros Hrun. exists s0. repeat split; auto.
    right. split; [left; exact Hl|reflexivity].
Qed.

Lemma pushProof_stored_noop fuel proof sfx s pd :
  verification_passes proof sfx ->
  _store s !! block_hash (chain_head (prefix proof)) = Some pd ->
  totalDifficulty pd > 0 ->
  Forall (fun b => is_Some (_store s !! block_hash b)) sfx ->
  pushProof fuel proof s = Returned true s.
Proof.
  intros (Hv & Hl & Hs) Hpd Htd Hknown.
  apply bad_suffix_length_false in Hl.
  rewrite (pushProof_passes fuel proof s sfx Hv Hl Hs).
  destruct (_isBetterProof _ _ _); [|reflexivity].
  unfold _acceptProof. eng. rewrite Hpd.
  destruct (decide _); [lia|].
  rewrite push_suffix_known by exact Hknown. reflexivity.
Qed.

Lemma pushProof_true_inv fuel proof sfx s s' :
  verification_passes proof sfx ->
  pushProof fuel proof s = Returned true s' ->
  (_isBetterProof proof (_proof s) Policy_M = false /\ s' = s)
  \/ (_isBetterProof proof (_proof s) Policy_M = true
      /\ _acceptProof fuel proof sfx s = Returned tt s').
Proof.
  intros (Hv & Hl & Hs). apply bad_suffix_length_false in Hl.
  rewrite (pushProof_passes fuel proof s sfx Hv Hl Hs).
  destruct (_isBetterProof _ _ _).
  - destruct (_acceptProof _ _ _ s) as [[] s1|s1|]; [|discriminate..].
    inversion 1; subst. auto.
  - inversion 1; subst. auto.
Qed.

(** X13. A proof that was accepted is accepted again and changes nothing the
    second time: on an engine whose head hash resolves to its main chain,
    for a prefix whose head has a positive difficulty and hashes like no
    other prefix block, [pushProof] returning [true] leaves a state on
    which the same [pushProof] returns [true] without a change. *)
Theorem pushProof_twice fuel fuel' proof sfx s s' :
  verification_passes proof sfx ->
  head_apart proof ->
  head_stored s ->
  difficulty (header (chain_head (prefix proof))) > 0 ->
  pushProof fuel proof s = Returned true s' ->
  pushProof fuel' proof s' = Returned true s'.
Proof.
  intros Hpass Hapart Hs Hd Hrun.
  destruct (pushProof_true_inv _ _ _ _ _ Hpass Hrun) as [[Hb ->]|[Hb Ha]].
  - destruct Hpass as (Hv & Hl & Hsfx). apply bad_suffix_length_false in Hl.
    rewrite (pushProof_passes fuel' proof s sfx Hv Hl Hsfx), Hb. reflexivity.
  - destruct (acceptProof_returned _ _ _ _ _ Hapart Hs Ha) as (s0 & Hs0 & Hpush & Hcase).
    destruct (push_suffix_grows fuel sfx s0 s' Hs0 ltac:(rewrite Hpush; reflexivity))
      as [G _].
    assert (exists pd0, _store s0 !! block_hash (chain_head (prefix proof)) = Some pd0
                        /\ totalDifficulty pd0 > 0) as (pd0 & Hpd0 & Htd0).
    { destruct Hcase as [(pd & Hpd & Htd & ->)|[_ Hreset]]; [eauto|].
      destruct (reset_to_run proof s Hapart) as (s0' & Hreset' & Hhs & Hh & Htd & _).
      rewrite Hreset in Hreset'. inversion Hreset'; subst s0'.
      exists (_mainChain s0). unfold head_stored in Hhs. rewrite <- Hh.
      split; [exact Hhs|lia]. }
    destruct (G _ _ Hpd0) as (pd' & Hpd' & (_ & Htd' & _)).
    eapply pushProof_stored_noop; [exact Hpass|exact Hpd'|lia|].
    eapply push_suffix_stores; eauto.
Qed.

(** X14. After an adoption with reset, of a proof whose prefix head hashes
    unlike its earlier prefix blocks, the earlier prefix blocks are
    retrieval-only leaves: each is stored with [totalDifficulty] and
    [totalWork] [-1], and a new header with a proof of work that names one
    of them as its predecessor is an orphan. *)
Theorem prefix_blocks_not_extendable fuel proof sfx s s' :
  verification_passes proof sfx ->
  _isBetterProof proof (_proof s) Policy_M = true ->
  not_extendable s (block_hash (chain_head (prefix proof))) ->
  head_apart proof ->
  pushProof fuel proof s = Returned true s' ->
  (forall p, p ∈ chain_init (prefix proof) ->
     exists d, _store s' !! block_hash p = Some d
               /\ totalDifficulty d = -1 /\ totalWork d = -1)
  /\ (forall fuel' hdr,
        prevHash hdr ∈ block_hash <$> chain_init (prefix proof) ->
        _store s' !! header_hash hdr = None ->
        verifyProofOfWork hdr = true ->
        pushHeader fuel' hdr s' = Returned ERR_ORPHAN s').
Proof.
  intros Hpass Hb Hne Hapart Hrun.
  destruct (pushProof_true_inv _ _ _ _ _ Hpass Hrun) as [[Hb' _]|[_ Ha]]; [congruence|].
  assert (forall p, p ∈ chain_init (prefix proof) ->
            exists d, _store s' !! block_hash p = Some d
                      /\ totalDifficulty d = -1 /\ totalWork d = -1) as Hleaves.
  { destruct (reset_to_run proof s Hapart) as (s0 & Hreset & Hs0 & _ & _ & Hleaf & _).
    assert (push_suffix fuel sfx s0 = Returned tt s') as Hpush.
    { revert Ha. unfold _acceptProof. eng.
      destruct Hne as [Hl|(pd & Hl & Htd)]; rewrite Hl.
      - rewrite Hreset. auto.
      - destruct (decide _); [|lia]. rewrite Hreset. auto. }
    destruct (push_suffix_grows fuel sfx s0 s' Hs0 ltac:(rewrite Hpush; reflexivity))
      as [G _].
    intros p Hp. destruct (Hleaf p Hp) as (d & Hd & Htd & Htw).
    destruct (G _ _ Hd) as (d' & Hd' & (_ & Htd' & Htw')).
    exists d'. split; [exact Hd'|split; congruence]. }
  split; [exact Hleaves|].
  intros fuel' hdr Hprev Hnew Hpow.
  apply list_elem_of_fmap in Hprev as (p & Hp & Hin).
  destruct (Hleaves p Hin) as (d & Hd & Htd & _).
  apply pushHeader_orphan; [exact Hnew|exact Hpow|].
  right. exists d. rewrite Hp. split; [exact Hd|lia].
Qed.

(** X15. An adoption with reset, of a proof whose prefix head hashes unlike
    its earlier prefix blocks, forgets the old store: afterwards every
    stored hash is the hash of a prefix block or of a suffix block of the
    proof. *)
Theorem reset_forgets_old_store fuel proof sfx s s' :
  verification_passes proof sfx ->
  _isBetterProof proof (_proof s) Policy_M = true ->
  not_extendable s (block_hash (chain_head (prefix proof))) ->
  head_apart proof ->
  pushProof fuel proof s = Returned true s' ->
  forall h, is_Some (_store s' !! h) ->
    h ∈ block_hash <$> blocks (prefix proof) \/ h ∈ block_hash <$> sfx.
Proof.
  intros Hpass Hb Hne Hapart Hrun h Hsome.
  destruct (pushProof_true_inv _ _ _ _ _ Hpass Hrun) as [[Hb' _]|[_ Ha]]; [congruence|].
  destruct (reset_to_run proof s Hapart) as (s0 & Hreset & Hs0 & _ & _ & _ & Hdom).
  assert (push_suffix fuel sfx s0 = Returned tt s') as Hpush.
  { revert Ha. unfold _acceptProof. eng.
    destruct Hne as [Hl|(pd & Hl & Htd)]; rewrite Hl.
    - rewrite Hreset. auto.
    - destruct (decide _); [|lia]. rewrite Hreset. auto. }
  destruct (push_suffix_grows fuel sfx s0 s' Hs0 ltac:(rewrite Hpush; reflexivity))
    as [_ G].
  destruct (decide (h ∈ block_hash <$> sfx)) as [Hin|Hnin]; [right; exact Hin|].
  left. apply Hdom.
  destruct (_store s0 !! h) eqn:Hl; [eauto|].
  rewrite (G h Hl Hnin) in Hsome. destruct Hsome; discriminate.
Qed.

Lemma verify_suffix_hashes hd hs : forall sfx,
  verify_suffix hd hs = Some sfx -> block_hash <$> sfx = header_hash <$> hs.
Proof.
  revert hd. induction hs as [|h hs IH]; intros hd sfx; simpl.
  - inversion 1; reflexivity.
  - destruct (decide _); [|discriminate].
    destruct (verify_suffix _ hs) as [rest|] eqn:Hr; [|discriminate].
    simpl. inversion 1; subst. rewrite !fmap_cons. f_equal. eapply IH; eauto.
Qed.

(** X16. A proof whose prefix head is stored and extendable is grafted, not
    reset: whether [pushProof] returns or throws, every entry is still
    there with its block and totals, and the only new keys are hashes of
    suffix headers. *)
Theorem pushProof_graft_keeps_blocks fuel proof s s' pd :
  head_stored s ->
  _store s !! block_hash (chain_head (prefix proof)) = Some pd ->
  totalDifficulty pd > 0 ->
  state_after (pushProof fuel proof s) = Some s' ->
  (forall h d, _store s !! h = Some d ->
     exists d', _store s' !! h = Some d' /\ same_block d d')
  /\ (forall h, _store s !! h = None ->
        h ∉ header_hash <$> headers (suffix proof) -> _store s' !! h = None).
Proof.
  intros Hs Hpd Htd.
  assert ((forall h d, _store s !! h = Some d ->
             exists d', _store s !! h = Some d' /\ same_block d d')
          /\ (forall h, _store s !! h = None ->
                h ∉ header_hash <$> headers (suffix proof) -> _store s !! h = None)) as Hid.
  { split; [|auto]. intros h d Hl. exists d. split; [exact Hl|apply same_block_refl]. }
  unfold pushProof, _pushProof.
  destruct (negb _); [inversion 1; subst; exact Hid|].
  destruct (bad_suffix_length _); [inversion 1; subst; exact Hid|].
  destruct (verify_suffix _ _) as [sfx|] eqn:Hsfx; [|inversion 1; subst; exact Hid].
  eng. destruct (_isBetterProof _ _ _); [|inversion 1; subst; exact Hid].
  intros Hrun.
  assert (state_after (push_suffix fuel sfx s) = Some s') as Hpush.
  { revert Hrun. unfold _acceptProof. eng. rewrite Hpd.
    destruct (decide _); [lia|].
    destruct (push_suffix fuel sfx s) as [[] s1|s1|]; auto. }
  rewrite <- (verify_suffix_hashes _ _ _ Hsfx).
  eapply push_suffix_grows; eauto.
Qed.

End AdoptionFacts.

Section AccountFacts.

Context {lib : BlockLib}.

(** *** Totals add up along [prevHash] *)












End AccountFacts.

(** Runs on the small library. *)
Module ToyRuns.

Import Toy.

(** Sums of the small runs are finite. *)
Ltac finite_toy :=
  first
    [ intros pd Hpd; vm_compute in Hpd; inversion Hpd; subst; split;
      vm_compute; discriminate
    | vm_compute; discriminate ].

(** C1, as stated, fails: the predecessor of [weak_orphan] is unknown, yet
    the header is turned down for its proof of work, with [ERR_INVALID];
    and the genesis header, whose predecessor is unknown too, is
    [OK_KNOWN]. *)
Lemma pushHeader_weak_orphan_is_invalid :
  (orphan st0 weak_orphan
   /\ pushHeader 5 weak_orphan st0 = Returned ERR_INVALID st0
   /\ pushHeader 5 weak_orphan st0 <> Returned ERR_ORPHAN st0)
  /\ (orphan st0 (header genesis)
      /\ pushHeader 5 (header genesis) st0 = Returned OK_KNOWN st0
      /\ pushHeader 5 (header genesis) st0 <> Returned ERR_ORPHAN st0).
Proof.
  split.
  - split; [left; vm_compute; reflexivity|].
    split; [vm_compute; reflexivity|].
    vm_compute. discriminate.
  - split; [left; vm_compute; reflexivity|].
    split; [vm_compute; reflexivity|].
    vm_compute. discriminate.
Qed.

Lemma pushHeader_orphan_after_pow_witness :
  pushHeader 5 (header genesis) st0 = Returned OK_KNOWN st0
  /\ pushHeader 5 weak_orphan st0 = Returned ERR_INVALID st0
  /\ pushHeader 5 orphan_hdr st0 = Returned ERR_ORPHAN st0.
Proof.
  split; [|split].
  - apply (proj1 (pushHeader_orphan_after_pow 5 (header genesis) st0)).
    vm_compute. eauto.
  - apply (proj1 (proj2 (pushHeader_orphan_after_pow 5 weak_orphan st0)));
      vm_compute; reflexivity.
  - apply (proj2 (proj2 (pushHeader_orphan_after_pow 5 orphan_hdr st0)));
      [vm_compute; reflexivity|vm_compute; reflexivity|].
    left. vm_compute; reflexivity.
Defined.

(** C2, as stated, fails: [proof_loose] passes the three checks and is
    better than the genesis proof, yet [pushProof] does not return [true]:
    its suffix block is an orphan and the assertion of [_acceptProof]
    throws. *)
Lemma pushProof_verified_proof_throws :
  verification_passes proof_loose [mkBlock (hdr 77 2 1 5) []]
  /\ _isBetterProof proof_loose (_proof st0) Policy_M = true
  /\ _pushBlock 5 (mkBlock (hdr 77 2 1 5) []) st0 = Returned ERR_ORPHAN st0
  /\ pushProof 5 proof_loose st0 = Thrown st0.
Proof.
  split; [|split; [|split]]; try (vm_compute; reflexivity).
  split; [vm_compute; reflexivity|].
  split; [right; vm_compute; reflexivity|vm_compute; reflexivity].
Qed.

Lemma pushProof_false_iff_verification_fails_witness :
  pushProof 5 proof1 st0 = Returned true st_proof1
  /\ pushProof 5 proof_loose st0 = Thrown st0.
Proof.
  assert (verification_passes proof1 [mkBlock child []]) as H1.
  { split; [vm_compute; reflexivity|].
    split; [right; vm_compute; reflexivity|vm_compute; reflexivity]. }
  assert (verification_passes proof_loose [mkBlock (hdr 77 2 1 5) []]) as H2.
  { split; [vm_compute; reflexivity|].
    split; [right; vm_compute; reflexivity|vm_compute; reflexivity]. }
  split.
  - rewrite (proj1 (proj2 (proj2 (proj2 (pushProof_false_iff_verification_fails 5 proof1 st0)
                                    [mkBlock child []] H1)))
               ltac:(vm_compute; reflexivity)).
    vm_compute. reflexivity.
  - refine (proj2 (proj2 (proj2 (proj2 (pushProof_false_iff_verification_fails 5 proof_loose st0)
                                   [mkBlock (hdr 77 2 1 5) []] H2)))
              (mkBlock (hdr 77 2 1 5) []) [] genesis_data eq_refl _ _ _ _ _).
    + vm_compute; reflexivity.
    + vm_compute; reflexivity.
    + vm_compute; reflexivity.
    + vm_compute; reflexivity.
    + left. vm_compute; reflexivity.
Defined.

Lemma rejection_leaves_engine_unchanged_witness :
  pushHeader 5 orphan_hdr st0 = Returned ERR_ORPHAN st0
  /\ (_store st0 = _store st0
      /\ _headHash st0 = _headHash st0
      /\ _mainChain st0 = _mainChain st0
      /\ fired st0 = fired st0
      /\ st0 = st0).
Proof.
  split; [vm_compute; reflexivity|].
  apply (rejection_leaves_engine_unchanged 5 orphan_hdr proof1 st0 st0).
  left. exists ERR_ORPHAN. split; [vm_compute; reflexivity|right; reflexivity].
Defined.

Example cold_start :
  head (_mainChain st0) = genesis
  /\ height (header (head (_mainChain st0))) = 1
  /\ _headHash st0 = block_hash genesis.
Proof. repeat split. Qed.

Example extend_by_one :
  exists s', pushHeader 5 child st0 = Returned OK_EXTENDED s'
             /\ fired s' = [mkBlock child []]
             /\ height (header (head (_mainChain s'))) = 2
             /\ totalDifficulty (_mainChain s') = 2.
Proof. eexists. split; [vm_compute; reflexivity|]. repeat split. Qed.

Example fork_then_known :
  pushHeader 5 child' (default st0 (after_calls 5 [PushHeader child; PushHeader grandchild] st0))
  = Returned OK_FORKED st_forked
  /\ pushHeader 5 child' st_forked = Returned OK_KNOWN st_forked
  /\ fired st_forked = [mkBlock child []; mkBlock grandchild []].
Proof. repeat split; vm_compute; reflexivity. Qed.

Example reorg :
  exists s', pushHeader 5 grandchild' st_forked = Returned OK_REBRANCHED s'
             /\ _headHash s' = 13%N
             /\ onMainChain <$> _store s' !! 2%N = Some false
             /\ onMainChain <$> _store s' !! 3%N = Some false
             /\ onMainChain <$> _store s' !! 12%N = Some true
             /\ onMainChain <$> _store s' !! 13%N = Some true
             /\ fired s' = fired st_forked ++ [mkBlock grandchild' []].
Proof. eexists. split; [vm_compute; reflexivity|]. repeat split. Qed.

(** A proof on a prefix the engine has never seen: the store is reset to
    the prefix and the suffix block becomes the head. *)
Example proof_adopted_with_reset :
  exists s', pushProof 5 proof_far st0 = Returned true s'
             /\ _headHash s' = 43%N
             /\ _store s' !! 1%N = None
             /\ totalDifficulty <$> _store s' !! 40%N = Some (-1)
             /\ totalDifficulty <$> _store s' !! 41%N = Some 4
             /\ totalDifficulty <$> _store s' !! 43%N = Some 9
             /\ fired s' = suffix_far.
Proof.
  destruct (pushProof_adopts_with_reset 5 proof_far suffix_far st0)
    as (s' & Hrun & Hh & Hf).
  - split; [vm_compute; reflexivity|].
    split; [left; vm_compute; reflexivity|vm_compute; reflexivity].
  - vm_compute; reflexivity.
  - left. vm_compute; reflexivity.
  - vm_compute; reflexivity.
  - repeat split.
  - apply (bool_decide_unpack _). vm_compute. exact I.
  - repeat constructor; vm_compute; discriminate.
  - exists s'. split; [exact Hrun|].
    vm_compute in Hrun. inversion Hrun; subst s'. repeat split.
Qed.

(** The total of [heavier] on genesis is [1 + 2^53], which as a double is
    [2^53]: not above the main chain's [2^53], so the block forks and
    [2^53] is stored. *)
Example rounded_total_forks :
  totalDifficulty (_mainChain st_heavy) = 2 ^ 53
  /\ exists s', pushHeader 5 heavier st_heavy = Returned OK_FORKED s'
                /\ totalDifficulty <$> _store s' !! 12%N = Some (2 ^ 53)
                /\ _headHash s' = 2%N.
Proof.
  split; [vm_compute; reflexivity|].
  eexists. split; [vm_compute; reflexivity|]. split; reflexivity.
Qed.

Example proof_rejected :
  pushProof 5 proof_bad_interlink st0 = Returned false st0.
Proof. vm_compute. reflexivity. Qed.

(** The header route turns [unchecked] down, the block route appends it. *)
Example unchecked_block_is_appended :
  pushHeader 5 (header unchecked) st0 = Returned ERR_INVALID st0
  /\ exists s', _pushBlock 5 unchecked st0 = Returned OK_EXTENDED s'
                /\ _headHash s' = block_hash unchecked.
Proof.
  split; [vm_compute; reflexivity|].
  eexists. split; [vm_compute; reflexivity|]. reflexivity.
Qed.

(** Three blocks at depth 2, one at depth 0, [m = 2]: the walk stops at
    depth 2 with sum 3, the score is [2^2 * 3]. *)
Example score_of_four_blocks :
  _getProofScore
    (mkBlockChain [mkBlock (hdr 0 1 1 2) []; mkBlock (hdr 0 2 1 5) [];
                   mkBlock (hdr 0 3 1 8) []]
       (mkBlock (hdr 0 4 1 3) []))
    genesis 2 = 12.
Proof. vm_compute. reflexivity. Qed.

Lemma getProofScore_no_blocks_above_witness :
  _getProofScore (mkBlockChain [genesis] (mkBlock child [])) (mkBlock (hdr 0 9 1 7) []) 1 = 0.
Proof.
  refine (proj2 (proj2 (getProofScore_no_blocks_above
                          (mkBlockChain [genesis] (mkBlock child []))
                          (mkBlock (hdr 0 9 1 7) []) 1 _))).
  repeat constructor.
Defined.

Lemma proof_field_never_written_witness :
  exists s',
    after_calls 5 [PushProof proof1; PushHeader grandchild; PushProof proof1] st0 = Some s'
    /\ _headHash s' = 3%N
    /\ _proof s' = genesis_proof.
Proof.
  eexists. split; [vm_compute; reflexivity|]. split; [reflexivity|].
  refine (proj1 (proof_field_never_written 5
                   [PushProof proof1; PushHeader grandchild; PushProof proof1] _ _)).
  vm_compute. reflexivity.
Defined.

Lemma pushBlock_bypasses_header_validation_witness :
  _pushBlock 5 unchecked st0
  = _pushBlockInternal 5 unchecked (block_hash unchecked) genesis_data st0.
Proof.
  refine (proj2 (proj2 (proj2 (proj2 (proj2
            (pushBlock_bypasses_header_validation
               (fun _ => true) (fun _ _ => true) (fun _ _ => 0) (fun _ => false)
               (fun t => t) (fun _ _ => []) (fun _ => 0%N) 5 unchecked st0)))))
            genesis_data _ _ _).
  - vm_compute; reflexivity.
  - vm_compute; reflexivity.
  - vm_compute; reflexivity.
Defined.



Lemma pushBlockInternal_rebranches_witness :
  exists s',
    _pushBlockInternal 5 (mkBlock grandchild' []) 13%N data_child' st_forked
    = Returned OK_REBRANCHED s'
    /\ _headHash s' = 13%N
    /\ _mainChain s' = mkChainData (mkBlock grandchild' []) 7 3 true
    /\ (forall h d, (h, d) ∈ [(3%N, data_grandchild); (2%N, data_child)] ->
         _store s' !! h = Some (set_onMainChain false d))
    /\ (forall h d,
          (h, d) ∈ [(13%N, mkChainData (mkBlock grandchild' []) 7 3 false);
                    (12%N, data_child')] ->
          _store s' !! h = Some (set_onMainChain true d))
    /\ (forall h, h ∉ [3%N; 2%N] -> h ∉ [12%N] -> h <> 13%N ->
         _store s' !! h = _store st_forked !! h)
    /\ fired s' = fired st_forked ++ [mkBlock grandchild' []].
Proof.
  refine (pushBlockInternal_rebranches 5 (mkBlock grandchild' []) 13%N data_child'
            st_forked 1%N genesis_data [(12%N, data_child')]
            [(3%N, data_grandchild); (2%N, data_child)] _ _ _ _ _ _ _ _ _ _ _ _ _).
  - finite_toy.
  - finite_toy.
  - vm_compute; reflexivity.
  - vm_compute; discriminate.
  - vm_compute; reflexivity.
  - vm_compute; reflexivity.
  - repeat split; vm_compute; reflexivity.
  - apply (bool_decide_unpack _). vm_compute. exact I.
  - repeat split; vm_compute; reflexivity.
  - vm_compute; reflexivity.
  - reflexivity.
  - simpl; lia.
  - simpl; lia.
Defined.

Lemma pushProof_suffix_length_witness :
  pushProof 5 proof_bad_length st0 = Returned false st0.
Proof.
  refine (proj1 (pushProof_suffix_length 5 proof_bad_length st0 _) _).
  - vm_compute; reflexivity.
  - split; vm_compute; discriminate.
Defined.

(** One more block at depth 1 lowers the score from [2^0 * 6] to
    [2^1 * 2]: the score is not monotone in the blocks. *)
Example score_can_drop :
  _getProofScore chain_five_one genesis 2 = 6
  /\ _getProofScore chain_five_two genesis 2 = 4.
Proof. split; vm_compute; reflexivity. Qed.

Lemma getProofScore_zero_iff_witness :
  0 <= _getProofScore chain_ab genesis 2.
Proof. exact (proj1 (getProofScore_zero_iff chain_ab genesis 2)). Defined.

Lemma getProofScore_Permutation_witness :
  _getProofScore chain_ab genesis 1 = _getProofScore chain_ba genesis 1.
Proof.
  apply (getProofScore_Permutation chain_ab chain_ba genesis 1).
  apply Permutation_swap.
Defined.

Lemma getProofScore_below_threshold_witness :
  _getProofScore chain_ab genesis 3 = 2.
Proof.
  refine (getProofScore_below_threshold chain_ab genesis 3 _).
  vm_compute. reflexivity.
Defined.

Lemma isBetterProof_total_witness :
  _isBetterProof proof1 proof_far 2 = true \/ _isBetterProof proof_far proof1 2 = true.
Proof.
  refine (proj1 (isBetterProof_total proof1 proof_far 2 _)). reflexivity.
Defined.

Lemma verify_suffix_iff_witness :
  verify_suffix genesis [child] = Some [mkBlock child []].
Proof.
  apply (verify_suffix_iff genesis [child] [mkBlock child []]).
  split; [reflexivity|]. split; [split; [reflexivity|exact I]|].
  repeat constructor.
Defined.

Lemma pushHeader_new_head_witness :
  get_headHash st_child = 2%N /\ get_height st_child = 2.
Proof.
  destruct (pushHeader_new_head 5 child st0 OK_EXTENDED st_child)
    as (pd & _ & _ & _ & Hh & Hht & _).
  - finite_toy.
  - vm_compute; reflexivity.
  - left; reflexivity.
  - split; [rewrite Hh|rewrite Hht]; reflexivity.
Defined.

Lemma pushHeader_head_kept_witness :
  get_head st_forked = get_head st_grandchild /\ fired st_forked = fired st_grandchild.
Proof.
  destruct (pushHeader_head_kept 5 child' st_grandchild OK_FORKED st_forked)
    as (Hh & _ & _ & Hf & _).
  - finite_toy.
  - vm_compute; reflexivity.
  - discriminate.
  - discriminate.
  - split; assumption.
Defined.

Lemma pushHeader_is_pushBlock_witness :
  pushHeader 5 child st0 = _pushBlock 5 (mkBlock child []) st0.
Proof.
  refine (pushHeader_is_pushBlock 5 child st0 genesis_data _).
  repeat split; vm_compute; reflexivity.
Defined.

Lemma store_keyed_by_hash_witness :
  block_hash (get_head st_far) = get_headHash st_far.
Proof.
  refine (proj2 (store_keyed_by_hash 5 [PushProof proof_far] st_far _)).
  vm_compute; reflexivity.
Defined.

Lemma head_hash_resolves_witness :
  _store st_rebranched !! get_headHash st_rebranched = Some (_mainChain st_rebranched).
Proof.
  refine (proj1 (head_hash_resolves 5
                   [PushHeader child; PushHeader grandchild; PushHeader child';
                    PushHeader grandchild'] st_rebranched _ _)).
  - repeat constructor.
  - vm_compute; reflexivity.
Defined.

Lemma pushHeader_keeps_blocks_witness :
  exists d', _store st_rebranched !! 3%N = Some d' /\ same_block data_grandchild d'.
Proof.
  refine (proj1 (pushHeader_keeps_blocks 5 grandchild' st_forked st_rebranched _ _)
            3%N data_grandchild _).
  - vm_compute; reflexivity.
  - vm_compute; reflexivity.
  - vm_compute; reflexivity.
Defined.

Lemma pushProof_known_blocks_witness :
  pushProof 5 proof1 st_child = Returned true st_child.
Proof.
  refine (pushProof_known_blocks 5 proof1 [mkBlock child []] st_child genesis_data _ _ _ _).
  - split; [vm_compute; reflexivity|].
    split; [right; vm_compute; reflexivity|vm_compute; reflexivity].
  - vm_compute; reflexivity.
  - vm_compute; reflexivity.
  - repeat constructor. vm_compute. eauto.
Defined.

Lemma pushProof_twice_witness :
  pushProof 7 proof_far st_far = Returned true st_far.
Proof.
  refine (pushProof_twice 5 7 proof_far suffix_far st0 st_far _ _ _ _ _).
  - split; [vm_compute; reflexivity|].
    split; [left; vm_compute; reflexivity|vm_compute; reflexivity].
  - apply (bool_decide_unpack _). vm_compute. exact I.
  - vm_compute; reflexivity.
  - vm_compute; reflexivity.
  - vm_compute; reflexivity.
Defined.

Lemma prefix_blocks_not_extendable_witness :
  pushHeader 5 on_leaf st_far = Returned ERR_ORPHAN st_far.
Proof.
  refine (proj2 (prefix_blocks_not_extendable 5 proof_far suffix_far st0 st_far _ _ _ _ _)
            5%nat on_leaf _ _ _).
  - split; [vm_compute; reflexivity|].
    split; [left; vm_compute; reflexivity|vm_compute; reflexivity].
  - vm_compute; reflexivity.
  - left. vm_compute; reflexivity.
  - apply (bool_decide_unpack _). vm_compute. exact I.
  - vm_compute; reflexivity.
  - apply (bool_decide_unpack _). vm_compute. exact I.
  - vm_compute; reflexivity.
  - vm_compute; reflexivity.
Defined.

Lemma reset_forgets_old_store_witness :
  _store st_far !! 1%N = None.
Proof.
  destruct (_store st_far !! 1%N) as [d|] eqn:Hl; [|reflexivity]. exfalso.
  destruct (reset_forgets_old_store 5 proof_far suffix_far st0 st_far) with (h := 1%N)
    as [Hin|Hin].
  - split; [vm_compute; reflexivity|].
    split; [left; vm_compute; reflexivity|vm_compute; reflexivity].
  - vm_compute; reflexivity.
  - left. vm_compute; reflexivity.
  - apply (bool_decide_unpack _). vm_compute. exact I.
  - vm_compute; reflexivity.
  - rewrite Hl. eauto.
  - revert Hin. apply (bool_decide_unpack _). vm_compute. exact I.
  - revert Hin. apply (bool_decide_unpack _). vm_compute. exact I.
Defined.

Lemma pushProof_graft_keeps_blocks_witness :
  exists d', _store st_proof1 !! 1%N = Some d' /\ same_block genesis_data d'.
Proof.
  refine (proj1 (pushProof_graft_keeps_blocks 5 proof1 st0 st_proof1 genesis_data _ _ _ _)
            1%N genesis_data _).
  - vm_compute; reflexivity.
  - vm_compute; reflexivity.
  - vm_compute; reflexivity.
  - vm_compute; reflexivity.
  - vm_compute; reflexivity.
Defined.


End ToyRuns.
